(** * file-seek: the OCR extraction pipeline and the reconciliation glue

    A shallow embedding of [src/pipeline/ocr_module.py] (module [Ocr]) and of
    the [process] and [watch] commands of [src/cli/cli.py] (module [Cli]),
    with the properties of the specification stated over it.

    Python exceptions are values of [exc]; a [try ... except Exception] block
    is a [match] on that value.  External collaborators (the OCR engine, the
    PDF rasteriser, the filesystem, the classifier, the document store) are
    parameters: their answers are inputs of the embedded functions. *)

From Stdlib Require Import ZArith QArith Lqa Ascii String List Lia.
From stdpp Require Import base option list sets gmap strings sorting.

Local Open Scope string_scope.
Local Open Scope list_scope.

Set Warnings "-clear-no-such-hyp".

(** ** Exceptions *)

Inductive exc (A : Type) : Type :=
| Ok (a : A)
| Raise (msg : string).
Arguments Ok {A} a.
Arguments Raise {A} msg.

Definition exc_bind {A B} (m : exc A) (k : A → exc B) : exc B :=
  match m with
  | Ok a => k a
  | Raise e => Raise e
  end.

Notation "'try!' x ← m ; k" := (exc_bind m (λ x, k))
  (at level 20, x name, m at level 100, k at level 200,
   format "'[v' 'try!'  x  ←  m ;  '/' k ']'").

(** A [for] loop whose body may raise: the first exception leaves the loop. *)
Fixpoint for_each {A S} (body : S → A → exc S) (st : S) (l : list A) : exc S :=
  match l with
  | [] => Ok st
  | x :: l' => try! st' ← body st x; for_each body st' l'
  end.

(** ** ocr_module.py *)

Module Ocr.

(** [pytesseract.image_to_data(..., output_type=Output.DICT)]: one list per
    column, the numeric columns as Python ints. *)
Record ocr_data := {
  d_conf : list Z;
  d_text : list string;
  d_left : list Z;
  d_top : list Z;
  d_width : list Z;
  d_height : list Z
}.

(** The dictionary appended to [boxes]. *)
Record box := {
  b_text : string;
  b_conf : Z;
  b_left : Z;
  b_top : Z;
  b_width : Z;
  b_height : Z
}.

(** The dataclass [OCRResult].  [confidence] is a Python float; the model
    keeps the exact rational, in lowest terms. *)
Record OCRResult := {
  text : string;
  confidence : Q;
  language : string;
  page_number : option nat;
  bounding_boxes : option (list box)
}.

Definition set_page_number (n : nat) (r : OCRResult) : OCRResult :=
  {| text := text r; confidence := confidence r; language := language r;
     page_number := Some n; bounding_boxes := bounding_boxes r |}.

(** [conf > self.confidence_threshold], an int against a float. *)
Definition exceeds (t : Q) (conf : Z) : bool :=
  if Qlt_le_dec t (inject_Z conf) then true else false.

(** The three lists filled by the loop of [process_image]. *)
Record parts := {
  text_parts : list string;
  confidences : list Z;
  boxes : list box
}.

Definition no_parts : parts :=
  {| text_parts := []; confidences := []; boxes := [] |}.

(** One iteration of [for i, conf in enumerate(ocr_data['conf'])].  An index
    out of range in another column is an [IndexError], caught by the
    enclosing [except]: [None] here. *)
Definition visit (d : ocr_data) (t : Q) (acc : option parts) (ic : nat * Z)
  : option parts :=
  a ← acc;
  if exceeds t ic.2 then
    tx ← d_text d !! ic.1;
    l ← d_left d !! ic.1;
    tp ← d_top d !! ic.1;
    w ← d_width d !! ic.1;
    h ← d_height d !! ic.1;
    Some {| text_parts := text_parts a ++ [tx];
            confidences := confidences a ++ [ic.2];
            boxes := boxes a ++ [ {| b_text := tx; b_conf := ic.2; b_left := l;
                                     b_top := tp; b_width := w; b_height := h |} ] |}
  else Some a.

Definition enumerate {A} (l : list A) : list (nat * A) := imap pair l.

Definition collect_parts (d : ocr_data) (t : Q) : option parts :=
  foldl (visit d t) (Some no_parts) (enumerate (d_conf d)).

Definition sumZ (l : list Z) : Z := foldr Z.add 0%Z l.

(** [np.mean(confidences) if confidences else 0.0] *)
Definition avg_confidence (l : list Z) : Q :=
  match l with
  | [] => 0%Q
  | _ => Qred (inject_Z (sumZ l) / inject_Z (Z.of_nat (length l)))
  end.

(** [process_image].  [engine] is what [Image.open], the preprocessor and
    [pytesseract.image_to_data] deliver for the image: the column dictionary,
    or an exception. *)
Definition process_image (languages : string) (confidence_threshold : Q)
    (engine : exc ocr_data) : option OCRResult :=
  match engine with
  | Raise _ => None
  | Ok d =>
      match collect_parts d confidence_threshold with
      | None => None
      | Some a =>
          Some {| text := String.concat " " (text_parts a);
                  confidence := avg_confidence (confidences a);
                  language := languages;
                  page_number := None;
                  bounding_boxes := Some (boxes a) |}
      end
  end.

(** The column dictionary the engine reports for a sequence of tokens. *)
Definition columns (toks : list box) : ocr_data :=
  {| d_conf := b_conf <$> toks; d_text := b_text <$> toks;
     d_left := b_left <$> toks; d_top := b_top <$> toks;
     d_width := b_width <$> toks; d_height := b_height <$> toks |}.

(** The tokens whose confidence strictly exceeds the threshold. *)
Definition retained (t : Q) (toks : list box) : list box :=
  List.filter (λ b, exceeds t (b_conf b)) toks.

(** The three lists of the loop when it has kept [toks]. *)
Definition parts_of (toks : list box) : parts :=
  {| text_parts := b_text <$> toks; confidences := b_conf <$> toks; boxes := toks |}.

Definition token (s : string) (c : Z) : box :=
  {| b_text := s; b_conf := c; b_left := 0; b_top := 0; b_width := 0; b_height := 0 |}.

(** [_process_pdf_page]: [if result:] holds for every dataclass instance. *)
Definition _process_pdf_page (languages : string) (confidence_threshold : Q)
    (image : exc ocr_data) (page_number : nat) : option OCRResult :=
  match process_image languages confidence_threshold image with
  | Some r => Some (set_page_number page_number r)
  | None => None
  end.

(** The thread pool.  Future [i] belongs to page [i]; [sched] is the order in
    which the workers finish pages before the collecting loop looks at them.
    A finished future holds the value its task returned. *)
Definition complete (languages : string) (t : Q) (temp_images : list (exc ocr_data))
    (done : gmap nat (option OCRResult)) (i : nat) : gmap nat (option OCRResult) :=
  match temp_images !! i with
  | Some image => <[i := _process_pdf_page languages t image i]> done
  | None => done
  end.

Definition run_pool (languages : string) (t : Q) (temp_images : list (exc ocr_data))
    (sched : list nat) : gmap nat (option OCRResult) :=
  foldl (complete languages t temp_images) ∅ sched.

(** [future.result()]: the stored value, or a wait until the worker has run
    the task. *)
Definition future_result (languages : string) (t : Q)
    (done : gmap nat (option OCRResult)) (i : nat) (image : exc ocr_data)
  : option OCRResult :=
  match done !! i with
  | Some r => r
  | None => _process_pdf_page languages t image i
  end.

(** [for future in futures: result = future.result(); if result: results.append(result)] *)
Definition gather (languages : string) (t : Q) (done : gmap nat (option OCRResult))
    (results : list OCRResult) (f : nat * exc ocr_data) : list OCRResult :=
  match future_result languages t done f.1 f.2 with
  | Some r => results ++ [r]
  | None => results
  end.

(** [process_pdf].  [raster] is what [pdf2image.convert_from_path] and the
    saving of the page images deliver: the pages in page order, each with the
    engine's answer for it, or an exception, which the [except] turns into
    the empty list. *)
Definition process_pdf (languages : string) (confidence_threshold : Q)
    (raster : exc (list (exc ocr_data))) (sched : list nat) : list OCRResult :=
  match raster with
  | Raise _ => []
  | Ok temp_images =>
      foldl (gather languages confidence_threshold
               (run_pool languages confidence_threshold temp_images sched))
            [] (enumerate temp_images)
  end.

(** What the task of every page returns, in page order. *)
Definition page_results (languages : string) (t : Q) (pages : list (exc ocr_data))
  : list (option OCRResult) :=
  imap (λ i image, _process_pdf_page languages t image i) pages.

(** What [process_file] does besides returning. *)
Inductive step :=
| call_super_process_file
| log_warning (msg : string)
| call_pdfplumber
| log_error (msg : string).

Definition lower_ascii (c : ascii) : ascii :=
  let n := nat_of_ascii c in
  if (65 <=? n)%nat && (n <=? 90)%nat then ascii_of_nat (n + 32) else c.

(** [str.lower], on ASCII strings. *)
Definition lower (s : string) : list ascii :=
  lower_ascii <$> list_ascii_of_string s.

Definition endswith (s : list ascii) (suf : string) : bool :=
  bool_decide (list_ascii_of_string suf `suffix_of` s).

(** ["\n".join(page.extract_text() for page in pdf.pages)]: [join] raises a
    [TypeError] on a page whose [extract_text] is [None]. *)
Definition join_pages (pages : list (option string)) : exc string :=
  match mapM id pages with
  | Some texts => Ok (String.concat (String "010" "") texts)
  | None => Raise "sequence item: expected str instance, NoneType found"
  end.

(** [process_file].  [primary] is the outcome of [super().process_file]: the
    value it returns or the exception it raises ([OCRProcessor] declares no
    base class, so on an instance of the class itself the call raises an
    [AttributeError]).  [fallback] is what pdfplumber delivers: the
    [extract_text] of every page, or an exception. *)
Definition process_file (primary : exc (option string)) (file_path : string)
    (fallback : exc (list (option string))) : list step * option string :=
  match primary with
  | Ok v => ([call_super_process_file], v)
  | Raise e =>
      let warned :=
        [call_super_process_file;
         log_warning ("OCR failed: " +:+ e +:+ ", attempting fallback text extraction")] in
      if endswith (lower file_path) ".pdf" then
        match exc_bind fallback join_pages with
        | Ok s => (warned ++ [call_pdfplumber], Some s)
        | Raise e' =>
            (warned ++ [call_pdfplumber;
                        log_error ("Fallback PDF extraction failed: " +:+ e')], None)
        end
      else (warned, None)
  end.

(** *** The loop of [process_image] on arbitrary columns *)

(** The box the loop builds at index [ic.1] for the confidence [ic.2]. *)
Definition cell (d : ocr_data) (ic : nat * Z) : option box :=
  tx ← d_text d !! ic.1;
  l ← d_left d !! ic.1;
  tp ← d_top d !! ic.1;
  w ← d_width d !! ic.1;
  h ← d_height d !! ic.1;
  Some {| b_text := tx; b_conf := ic.2; b_left := l;
          b_top := tp; b_width := w; b_height := h |}.

(** The entries of the confidence column above the threshold, with their
    indices. *)
Definition selected (d : ocr_data) (t : Q) : list (nat * Z) :=
  List.filter (λ ic, exceeds t ic.2) (enumerate (d_conf d)).

Definition append_parts (a b : parts) : parts :=
  {| text_parts := text_parts a ++ text_parts b;
     confidences := confidences a ++ confidences b;
     boxes := boxes a ++ boxes b |}.

(** A result whose page number is moved by [n] pages. *)
Definition shift_page (n : nat) (r : OCRResult) : OCRResult :=
  {| text := text r; confidence := confidence r; language := language r;
     page_number := (λ i, n + i)%nat <$> page_number r;
     bounding_boxes := bounding_boxes r |}.

(** *** Construction of the processor *)

Definition newline : string := String "010" "".

(** [check_tesseract_installation].  [version] is the outcome of importing
    pytesseract and asking for the Tesseract version, [system] is
    [platform.system()]. *)
Definition check_tesseract_installation (version : exc string) (system : string)
  : bool * string :=
  match version with
  | Ok _ => (true, "Tesseract is installed")
  | Raise _ =>
      let os_type := string_of_list_ascii (lower system) in
      (false,
       if String.eqb os_type "linux" then
         "To install Tesseract OCR on Linux:" +:+ newline +:+
         "sudo apt-get update && sudo apt-get install -y tesseract-ocr tesseract-ocr-eng"
       else if String.eqb os_type "darwin" then
         "To install Tesseract OCR on macOS:" +:+ newline +:+
         "brew install tesseract"
       else if String.eqb os_type "windows" then
         "To install Tesseract OCR on Windows:" +:+ newline +:+
         "1. Download installer from: https://github.com/UB-Mannheim/tesseract/wiki"
         +:+ newline +:+
         "2. Run the installer" +:+ newline +:+
         "3. Add Tesseract to system PATH"
       else "Please install Tesseract OCR for your operating system")
  end.

(** The attributes [__init__] sets, and the command it stores in
    [pytesseract.pytesseract.tesseract_cmd] when a path is given. *)
Record OCRProcessor := {
  languages : string;
  preprocess_images : bool;
  confidence_threshold : Q;
  max_workers : Z;
  tesseract_cmd : option string
}.

Definition not_installed (instructions : string) : string :=
  "Tesseract OCR is required but not installed." +:+ newline +:+ newline +:+
  instructions +:+ newline +:+ newline +:+
  "Alternatively, you can:" +:+ newline +:+
  "1. Disable OCR in config: neonarc config set ocr.enabled false" +:+ newline +:+
  "2. Use text-only mode for PDFs" +:+ newline +:+
  "3. Skip image processing".

(** [OCRProcessor.__init__]: a [RuntimeError] when Tesseract is missing. *)
Definition __init__ (langs : string + list string) (tesseract_path : option string)
    (preprocess : bool) (threshold : Q) (workers : Z)
    (version : exc string) (system : string) : exc OCRProcessor :=
  let chk := check_tesseract_installation version system in
  if chk.1 then
    Ok {| languages := match langs with
                       | inl s => s
                       | inr l => String.concat "," l
                       end;
          preprocess_images := preprocess;
          confidence_threshold := threshold;
          max_workers := workers;
          tesseract_cmd := match tesseract_path with
                           | Some p => if String.eqb p "" then None else Some p
                           | None => None
                           end |}
  else Raise (not_installed chk.2).

End Ocr.

(** ** cli.py *)

Module Cli.

(** A [pathlib.Path], as its components. *)
Abbreviation path := (list string).

(** [Path.parent] *)
Definition parent (p : path) : path := removelast p.

(** The collaborators of the commands.  Every call may raise. *)
Record Env := {
  is_file : path → exc bool;
  is_dir : path → exc bool;
  glob : path → string → exc (list path);
  should_process_file : path → exc bool;
  get_documents_in_directory : path → bool → exc (list path);
  ingest_file : path → exc unit;
  remove_document : path → exc unit;
  path_match : path → string → exc bool
}.

(** The calls to the store and the messages that mark how a command ended.
    Informational listings and progress bars are not recorded. *)
Inductive event :=
| print_warning (msg : string)
| print_error (msg : string)
| call_ingest_file (p : path)
| call_remove_document (p : path).

Global Instance event_eq_dec : EqDecision event.
Proof. solve_decision. Defined.

(** [current_files.add(p); files_to_process.append(p)] *)
Definition add_file (st : gset path * list path) (p : path) : gset path * list path :=
  ({[p]} ∪ st.1, st.2 ++ [p]).

(** The body of [for file_path in path.glob(glob_pattern)]. *)
Definition scan_entry (E : Env) (st : gset path * list path) (file_path : path)
  : exc (gset path * list path) :=
  try! f ← is_file E file_path;
  if f : bool then
    try! s ← should_process_file E file_path;
    Ok (if s : bool then add_file st file_path else st)
  else Ok st.

(** [glob_pattern = "**/*" if recursive else "*"] *)
Definition glob_pattern (recursive : bool) : string :=
  if recursive then "**/*" else "*".

(** The body of the first [for path in paths]. *)
Definition scan_root (E : Env) (recursive : bool) (st : gset path * list path)
    (p : path) : exc (gset path * list path) :=
  try! f ← is_file E p;
  if f : bool then
    try! s ← should_process_file E p;
    Ok (if s : bool then add_file st p else st)
  else
    try! d ← is_dir E p;
    if d : bool then
      try! entries ← glob E p (glob_pattern recursive);
      for_each (scan_entry E) st entries
    else Ok st.

(** The body of the second [for path in paths]. *)
Definition query_root (E : Env) (recursive : bool) (previous_files : gset path)
    (p : path) : exc (gset path) :=
  try! d ← is_dir E p;
  let base_path := if d : bool then p else parent p in
  try! docs ← get_documents_in_directory E base_path recursive;
  Ok (previous_files ∪ list_to_set docs).

Record plan := {
  files_to_process : list path;
  current_files : gset path;
  previous_files : gset path;
  deleted_files : gset path
}.

(** [process], up to [deleted_files = previous_files - current_files]. *)
Definition reconcile (E : Env) (paths : list path) (recursive : bool) : exc plan :=
  try! st ← for_each (scan_root E recursive) (∅, []) paths;
  try! prev ← for_each (query_root E recursive) ∅ paths;
  Ok {| files_to_process := st.2; current_files := st.1;
        previous_files := prev; deleted_files := prev ∖ st.1 |}.

(** A sequence of calls, each recorded when made; the first one that raises
    ends the sequence. *)
Fixpoint perform (calls : list (event * exc unit)) : list event * exc unit :=
  match calls with
  | [] => ([], Ok ())
  | (ev, Ok _) :: rest => let r := perform rest in (ev :: r.1, r.2)
  | (ev, Raise e) :: _ => ([ev], Raise e)
  end.

Record outcome := { trace : list event; aborted : bool }.

(** The [except Exception] of a command: report and [click.Abort]. *)
Definition finish (what : string) (r : list event * exc unit) : outcome :=
  match r.2 with
  | Ok _ => {| trace := r.1; aborted := false |}
  | Raise e => {| trace := r.1 ++ [print_error (what +:+ e)]; aborted := true |}
  end.

(** The command [process]. *)
Definition process (E : Env) (paths : list path) (recursive dry_run : bool) : outcome :=
  finish "Processing failed: "
    match reconcile E paths recursive with
    | Raise e => ([], Raise e)
    | Ok pl =>
        if bool_decide (files_to_process pl = []) && bool_decide (deleted_files pl = ∅)
        then ([print_warning "No changes detected"], Ok ())
        else if dry_run then ([], Ok ())
        else perform
               (((λ f, (call_remove_document f, remove_document E f))
                   <$> elements (deleted_files pl)) ++
                ((λ f, (call_ingest_file f, ingest_file E f))
                   <$> files_to_process pl))
    end.

(** [WatcherEvent] *)
Record WatcherEvent := {
  event_type : string;
  ev_path : path;
  is_directory : bool
}.

(** [any(event.path.match(pattern) for pattern in excluded)] *)
Fixpoint any_match (E : Env) (p : path) (excluded : list string) : exc bool :=
  match excluded with
  | [] => Ok false
  | pattern :: rest =>
      try! m ← path_match E p pattern;
      if m : bool then Ok true else any_match E p rest
  end.

(** The callback [handle_event] of the command [watch]; [excluded] is
    [cli.config.get('processing.excluded_patterns', [])].  Its [except]
    reports and returns. *)
Definition handle_event (E : Env) (excluded : list string) (ev : WatcherEvent)
  : list event :=
  trace (finish "Event handling failed: "
    (if bool_decide (event_type ev ∈ ["created"; "modified"]) then
       if is_directory ev then ([], Ok ())
       else match any_match E (ev_path ev) excluded with
            | Raise e => ([], Raise e)
            | Ok true => ([], Ok ())
            | Ok false => ([call_ingest_file (ev_path ev)], ingest_file E (ev_path ev))
            end
     else if bool_decide (event_type ev = "deleted") then
       if is_directory ev then ([], Ok ())
       else ([call_remove_document (ev_path ev)], remove_document E (ev_path ev))
     else ([], Ok ()))).

(** *** Collaborators that never raise *)

Record World := {
  w_is_file : path → bool;
  w_is_dir : path → bool;
  w_glob : path → string → list path;
  w_should_process : path → bool;
  w_documents : path → bool → list path;
  w_match : path → string → bool
}.

Definition reliable (W : World) : Env :=
  {| is_file p := Ok (w_is_file W p);
     is_dir p := Ok (w_is_dir W p);
     glob p pat := Ok (w_glob W p pat);
     should_process_file p := Ok (w_should_process W p);
     get_documents_in_directory p r := Ok (w_documents W p r);
     ingest_file _ := Ok ();
     remove_document _ := Ok ();
     path_match p pat := Ok (w_match W p pat) |}.

(** [base_path = path if path.is_dir() else path.parent] *)
Definition base_path (W : World) (p : path) : path :=
  if w_is_dir W p then p else parent p.

(** The files one root of the scope contributes. *)
Definition candidates (W : World) (recursive : bool) (root : path) : list path :=
  if w_is_file W root then
    (if w_should_process W root then [root] else [])
  else if w_is_dir W root then
    List.filter (λ f, w_is_file W f && w_should_process W f)
                (w_glob W root (glob_pattern recursive))
  else [].

(** The loop invariant of the first loop of [process]. *)
Definition in_step (st : gset path * list path) : Prop :=
  ∀ f, f ∈ st.1 ↔ f ∈ st.2.

(** The files all roots contribute, root after root. *)
Definition worklist (W : World) (recursive : bool) (paths : list path) : list path :=
  paths ≫= candidates W recursive.

(** What the store answers to the queries of all roots. *)
Definition recorded (W : World) (recursive : bool) (paths : list path) : list path :=
  paths ≫= λ root, w_documents W (base_path W root) recursive.

(** *** Concrete collaborators for the scenarios *)

(** [fnmatch] restricted to literal characters, [*] and [?]. *)
Fixpoint wildcard (pat : list ascii) : list ascii → bool :=
  match pat with
  | [] => λ s, match s with [] => true | _ => false end
  | c :: pat' =>
      if Ascii.eqb c "*" then
        fix star (s : list ascii) : bool :=
          wildcard pat' s || match s with [] => false | _ :: s' => star s' end
      else
        λ s, match s with
             | [] => false
             | d :: s' => (Ascii.eqb c "?" || Ascii.eqb c d) && wildcard pat' s'
             end
  end.

(** [PurePath.match] for a pattern of one component: it is matched against
    the last component of the path. *)
Definition match_name (p : path) (pattern : string) : bool :=
  match last p with
  | Some name => wildcard (list_ascii_of_string pattern) (list_ascii_of_string name)
  | None => false
  end.

(** A directory [docs] holding the given files, every file accepted by the
    classifier, and a store that has [stored] recorded under [docs] and
    nothing anywhere else. *)
Definition docs_world (files stored : list string) : World :=
  {| w_is_file p := bool_decide (p ∈ (λ n, ["docs"; n]) <$> files);
     w_is_dir p := bool_decide (p = ["docs"]);
     w_glob p _ := if bool_decide (p = ["docs"]) then (λ n, ["docs"; n]) <$> files else [];
     w_should_process _ := true;
     w_documents p _ :=
       if bool_decide (p = ["docs"]) then (λ n, ["docs"; n]) <$> stored else [];
     w_match := match_name |}.

(** Two roots: [locked], whose [stat] is refused, and [open], a directory
    with one file and nothing recorded. *)
Definition denied : Env :=
  {| is_file p :=
       if bool_decide (p = ["locked"]) then Raise "[Errno 13] Permission denied"
       else Ok (bool_decide (p = ["open"; "a.pdf"]));
     is_dir p := Ok (bool_decide (p = ["open"]));
     glob p _ := Ok (if bool_decide (p = ["open"]) then [["open"; "a.pdf"]] else []);
     should_process_file _ := Ok true;
     get_documents_in_directory _ _ := Ok [];
     ingest_file _ := Ok ();
     remove_document _ := Ok ();
     path_match p pat := Ok (match_name p pat) |}.

(** *** Further collaborators and notions for [process] and [watch] *)


(** An event that is a message, not a call to the store. *)
Definition is_message (ev : event) : bool :=
  match ev with
  | print_warning _ | print_error _ => true
  | call_ingest_file _ | call_remove_document _ => false
  end.

(** Collaborators that never raise, except that the store refuses the paths
    in [bad], both for ingest and for retire. *)
Definition refusing (W : World) (bad : list path) : Env :=
  {| is_file p := Ok (w_is_file W p);
     is_dir p := Ok (w_is_dir W p);
     glob p pat := Ok (w_glob W p pat);
     should_process_file p := Ok (w_should_process W p);
     get_documents_in_directory p r := Ok (w_documents W p r);
     ingest_file p := if bool_decide (p ∈ bad) then Raise "store refused" else Ok ();
     remove_document p := if bool_decide (p ∈ bad) then Raise "store refused" else Ok ();
     path_match p pat := Ok (w_match W p pat) |}.

(** The world [W] with a classifier that rejects the paths in [rejected]. *)
Definition rejecting (W : World) (rejected : list path) : World :=
  {| w_is_file := w_is_file W;
     w_is_dir := w_is_dir W;
     w_glob := w_glob W;
     w_should_process p := bool_decide (p ∉ rejected);
     w_documents := w_documents W;
     w_match := w_match W |}.

End Cli.

(** ** cli.py: the commands [search], [validate] and [list] *)

Module Commands.

Import Cli.

(** [s[:n]] *)
Fixpoint slice_to (n : nat) (s : string) : string :=
  match n, s with
  | S n', String c s' => String c (slice_to n' s')
  | _, _ => ""
  end.

(** The content cell of a row of [search]:
    [if len(content) > 100: content = content[:97] + "..."]. *)
Definition display_content (chunk_text : string) : string :=
  if (100 <? String.length chunk_text)%nat
  then slice_to 97 chunk_text +:+ "..."
  else chunk_text.

(** *** validate *)

(** The database and the indexes behind [cli.archivist], as [validate] and
    [list] use them.  A document is known by its id; an embedding by its
    [chunk_text]; a search result by its [document_path]. *)
Record Db := {
  get_document_by_path : path → exc (option Z);
  get_document_embeddings : Z → exc (list string);
  ntotal : exc nat;
  search_service_search : string → exc (list path)
}.

(** What [validate] prints, with the values it puts in the messages.  The
    section headings are not recorded, nor are the scores of the search
    results. *)
Inductive report :=
| no_files_found
| found_files (n : nat)
| document_record (file_path : path) (id : Z) (chunks : nat) (sample : option string)
| no_record_found (file_path : path)
| summary (files docs chunks : nat)
| total_vectors_in_store (vectors : nat)
| vector_count_mismatch (vectors chunks : nat)
| vector_count_matches
| sample_search_results (paths : list path)
| validation_failed (msg : string).

(** [[p for p in path.glob(glob_pattern) if p.is_file()]] *)
Fixpoint only_files (E : Env) (entries : list path) : exc (list path) :=
  match entries with
  | [] => Ok []
  | p :: rest =>
      try! f ← is_file E p;
      try! files ← only_files E rest;
      Ok (if f : bool then p :: files else files)
  end.

(** The paths collected at the start of [validate]; [p] is the absolute
    path. *)
Definition paths_to_validate (E : Env) (p : path) (recursive : bool) : exc (list path) :=
  try! f ← is_file E p;
  if f : bool then Ok [p]
  else
    try! d ← is_dir E p;
    if d : bool then
      try! entries ← glob E p (glob_pattern recursive);
      only_files E entries
    else Ok [].

(** The variables the loop over the files leaves behind: the two counters
    and [doc], the record of the file looked at last. *)
Record stats := {
  total_docs : nat;
  total_chunks : nat;
  doc : option Z
}.

(** The loop [for file_path in paths_to_validate]: what it prints, and the
    variables at its end or the exception that left it. *)
Fixpoint check_records (D : Db) (st : stats) (files : list path)
  : list report * exc stats :=
  match files with
  | [] => ([], Ok st)
  | file_path :: rest =>
      match get_document_by_path D file_path with
      | Raise e => ([], Raise e)
      | Ok None =>
          let r := check_records D {| total_docs := total_docs st;
                                      total_chunks := total_chunks st;
                                      doc := None |} rest in
          (no_record_found file_path :: r.1, r.2)
      | Ok (Some id) =>
          match get_document_embeddings D id with
          | Raise e => ([], Raise e)
          | Ok embeddings =>
              let r := check_records D
                         {| total_docs := S (total_docs st);
                            total_chunks := total_chunks st + length embeddings;
                            doc := Some id |} rest in
              (document_record file_path id (length embeddings)
                               (slice_to 100 <$> head embeddings) :: r.1, r.2)
          end
      end
  end.

(** The search test at the end of [validate]:
    [get_document_embeddings(doc['id'])[0]], then the search. *)
Definition search_test (D : Db) (st : stats) : list report * exc unit :=
  if (0 <? total_docs st)%nat then
    match doc st with
    | None => ([], Raise "'NoneType' object is not subscriptable")
    | Some id =>
        match get_document_embeddings D id with
        | Raise e => ([], Raise e)
        | Ok [] => ([], Raise "list index out of range")
        | Ok (sample_doc :: _) =>
            match search_service_search D sample_doc with
            | Raise e => ([], Raise e)
            | Ok results => ([sample_search_results results], Ok ())
            end
        end
    end
  else ([], Ok ()).

Record validation := { reports : list report; stopped : bool }.

(** The command [validate]; [stopped] is its [click.Abort]. *)
Definition validate (E : Env) (D : Db) (p : path) (recursive : bool) : validation :=
  match paths_to_validate E p recursive with
  | Raise e => {| reports := [validation_failed e]; stopped := true |}
  | Ok [] => {| reports := [no_files_found]; stopped := false |}
  | Ok files =>
      let checked := check_records D {| total_docs := 0; total_chunks := 0;
                                        doc := None |} files in
      match checked.2 with
      | Raise e =>
          {| reports := found_files (length files) :: checked.1 ++ [validation_failed e];
             stopped := true |}
      | Ok st =>
          let counted :=
            found_files (length files) :: checked.1
            ++ [summary (length files) (total_docs st) (total_chunks st)] in
          match ntotal D with
          | Raise e => {| reports := counted ++ [validation_failed e]; stopped := true |}
          | Ok total_vectors =>
              let compared :=
                counted
                ++ [total_vectors_in_store total_vectors;
                    if bool_decide (total_vectors ≠ total_chunks st)
                    then vector_count_mismatch total_vectors (total_chunks st)
                    else vector_count_matches] in
              match search_test D st with
              | (out, Ok _) => {| reports := compared ++ out; stopped := false |}
              | (out, Raise e) =>
                  {| reports := compared ++ out ++ [validation_failed e];
                     stopped := true |}
              end
          end
      end
  end.

(** A database that never raises. *)
Record Archive := {
  a_record : path → option Z;
  a_chunks : Z → list string;
  a_ntotal : nat;
  a_search : string → list path
}.

Definition steady (A : Archive) : Db :=
  {| get_document_by_path p := Ok (a_record A p);
     get_document_embeddings id := Ok (a_chunks A id);
     ntotal := Ok (a_ntotal A);
     search_service_search q := Ok (a_search A q) |}.

(** The files [validate] looks at when the filesystem never raises. *)
Definition validated_files (W : World) (p : path) (recursive : bool) : list path :=
  if w_is_file W p then [p]
  else if w_is_dir W p
       then List.filter (w_is_file W) (w_glob W p (glob_pattern recursive))
       else [].

(** The number of chunks recorded for the files that have a record. *)
Definition chunks_of (A : Archive) (files : list path) : nat :=
  sum_list ((λ id, length (a_chunks A id)) <$> omap (a_record A) files).

(** The variables the loop leaves behind on such a database. *)
Definition counted (A : Archive) (files : list path) : stats :=
  {| total_docs := length (omap (a_record A) files);
     total_chunks := chunks_of A files;
     doc := last files ≫= a_record A |}.

(** A database that raises on every call. *)
Definition unreachable : Db :=
  {| get_document_by_path _ := Raise "database is locked";
     get_document_embeddings _ := Raise "database is locked";
     ntotal := Raise "database is locked";
     search_service_search _ := Raise "database is locked" |}.

(** An archive that knows [docs/a.pdf] as document 1, with two chunks. *)
Definition one_document : Archive :=
  {| a_record p := if bool_decide (p = ["docs"; "a.pdf"]) then Some 1%Z else None;
     a_chunks id := if bool_decide (id = 1%Z) then ["alpha"; "beta"] else [];
     a_ntotal := 2;
     a_search _ := [["docs"; "a.pdf"]] |}.

(** *** list *)

(** A row of [get_all_documents]. *)
Record document := {
  doc_id : Z;
  doc_path : path;
  created_at : string
}.

(** [{**doc, 'chunk_count': len(chunks)}] *)
Record enhanced := {
  base : document;
  chunk_count : nat
}.

(** A loop or comprehension whose body may raise. *)
Fixpoint exc_map {A B} (f : A → exc B) (l : list A) : exc (list B) :=
  match l with
  | [] => Ok []
  | x :: l' =>
      try! y ← f x;
      try! ys ← exc_map f l';
      Ok (y :: ys)
  end.

(** [list.sort(key=key, reverse=reverse)]: a stable sort that compares keys
    with [<]; with [reverse] every comparison is turned round, and elements
    with equal keys keep their order in both cases.  [must_follow x y] says
    that [x] has to come after [y]. *)
Definition must_follow {A K} (lt : K → K → bool) (key : A → K) (reverse : bool)
    (x y : A) : bool :=
  if reverse then lt (key x) (key y) else lt (key y) (key x).

Fixpoint insert_sorted {A K} (lt : K → K → bool) (key : A → K) (reverse : bool)
    (x : A) (l : list A) : list A :=
  match l with
  | [] => [x]
  | y :: l' =>
      if must_follow lt key reverse x y
      then y :: insert_sorted lt key reverse x l'
      else x :: y :: l'
  end.

Definition sort_by {A K} (lt : K → K → bool) (key : A → K) (reverse : bool)
    (l : list A) : list A :=
  foldr (insert_sorted lt key reverse) [] l.

(** [Path(x['path']).name] *)
Definition name (p : path) : string := default "" (last p).

(** The three branches of [# Sort documents]. *)
Definition arrange (sort : string) (reverse : bool) (docs : list enhanced)
  : list enhanced :=
  if String.eqb sort "date" then
    sort_by String.ltb (λ x, created_at (base x)) (negb reverse) docs
  else if String.eqb sort "name" then
    sort_by String.ltb (λ x, name (doc_path (base x))) reverse docs
  else
    sort_by Nat.ltb chunk_count (negb reverse) docs.

(** What [list] shows: the warning, or the rows of the table (id, path,
    formatted creation time, chunk count) with the two totals of the summary,
    or the failure. *)
Inductive listing :=
| no_documents_found
| table (rows : list (Z * path * string * nat)) (total_documents total_chunks : nat)
| list_failed (msg : string).

(** The command [list].  [all_documents] is the outcome of
    [get_all_documents]; [strftime] is
    [datetime.fromisoformat(s).strftime('%Y-%m-%d %H:%M')], which raises on a
    string that is not an ISO date. *)
Definition list_ (all_documents : exc (list document)) (D : Db)
    (strftime : string → exc string) (sort : string) (reverse : bool) : listing :=
  match all_documents with
  | Raise e => list_failed e
  | Ok [] => no_documents_found
  | Ok docs =>
      match exc_map (λ d, try! chunks ← get_document_embeddings D (doc_id d);
                          Ok {| base := d; chunk_count := length chunks |}) docs with
      | Raise e => list_failed e
      | Ok enhanced_docs =>
          match exc_map (λ x, try! created ← strftime (created_at (base x));
                              Ok (doc_id (base x), doc_path (base x), created, chunk_count x))
                        (arrange sort reverse enhanced_docs) with
          | Raise e => list_failed e
          | Ok rows =>
              table rows (length enhanced_docs) (sum_list (chunk_count <$> enhanced_docs))
          end
      end
  end.

End Commands.

(** * Properties *)

Import Ocr Cli.

(** ** The page extractor *)

Section PageExtractor.

Variable t : Q.

Lemma exceeds_spec c : exceeds t c = true ↔ (t < inject_Z c)%Q.
Proof.
  unfold exceeds. destruct (Qlt_le_dec t (inject_Z c)) as [H|H].
  - tauto.
  - split; [discriminate|]. intros H'. exfalso. exact (Qlt_not_le _ _ H' H).
Qed.

Lemma enumerate_snoc {A} (l : list A) x :
  enumerate (l ++ [x]) = enumerate l ++ [(length l, x)].
Proof.
  unfold enumerate. rewrite imap_app. simpl. by rewrite Nat.add_0_r.
Qed.

Lemma retained_snoc (toks : list box) b :
  retained t (toks ++ [b]) =
  retained t toks ++ (if exceeds t (b_conf b) then [b] else []).
Proof. unfold retained. rewrite List.filter_app. simpl. by destruct (exceeds _ _). Qed.

Lemma lookup_middle_fmap {A B} (f : A → B) (pre post : list A) x :
  (f <$> (pre ++ x :: post)) !! length pre = Some (f x).
Proof. by rewrite list_lookup_fmap, list_lookup_middle. Qed.

(** The loop over the columns of a token sequence never leaves the columns,
    and keeps the tokens above the threshold, in order. *)
Lemma collect_prefix (pre post : list box) :
  foldl (visit (columns (pre ++ post)) t) (Some no_parts) (enumerate (b_conf <$> pre))
  = Some (parts_of (retained t pre)).
Proof.
  revert post. induction pre as [|b pre IH] using rev_ind; intros post; [done|].
  rewrite fmap_app. simpl. rewrite enumerate_snoc, foldl_app, length_fmap.
  rewrite <- app_assoc. simpl. rewrite IH. simpl.
  rewrite retained_snoc. destruct (exceeds t (b_conf b)) eqn:Hb; simpl.
  - unfold columns; simpl. rewrite !lookup_middle_fmap. simpl.
    unfold parts_of. rewrite !fmap_app. simpl. by destruct b.
  - by rewrite app_nil_r.
Qed.

Lemma collect_columns (toks : list box) :
  collect_parts (columns toks) t = Some (parts_of (retained t toks)).
Proof.
  unfold collect_parts. pose proof (collect_prefix toks []) as H.
  rewrite app_nil_r in H. exact H.
Qed.

Lemma process_image_tokens languages (toks : list box) :
  process_image languages t (Ok (columns toks)) =
  Some {| text := String.concat " " (b_text <$> retained t toks);
          confidence := avg_confidence (b_conf <$> retained t toks);
          language := languages;
          page_number := None;
          bounding_boxes := Some (retained t toks) |}.
Proof. unfold process_image. by rewrite collect_columns. Qed.

Lemma elem_of_retained (toks : list box) b :
  b ∈ retained t toks ↔ b ∈ toks ∧ (t < inject_Z (b_conf b))%Q.
Proof.
  unfold retained. rewrite !list_elem_of_In, List.filter_In, exceeds_spec. tauto.
Qed.

Lemma retained_all (toks : list box) : retained t toks `sublist_of` toks.
Proof.
  induction toks as [|b toks IH]; simpl; [constructor|].
  destruct (exceeds t (b_conf b)); by constructor.
Qed.

Lemma avg_confidence_mean (l : list Z) :
  l ≠ [] →
  (avg_confidence l == inject_Z (sumZ l) / inject_Z (Z.of_nat (length l)))%Q.
Proof. destruct l; [done|]. intros _. unfold avg_confidence. apply Qred_correct. Qed.

End PageExtractor.

Lemma retained_sublist (t1 t2 : Q) (toks : list box) :
  (t1 <= t2)%Q → retained t2 toks `sublist_of` retained t1 toks.
Proof.
  intros Hle. induction toks as [|b toks IH]; simpl; [constructor|].
  destruct (exceeds t2 (b_conf b)) eqn:H2.
  - assert (exceeds t1 (b_conf b) = true) as ->.
    { apply exceeds_spec. apply exceeds_spec in H2.
      exact (Qle_lt_trans _ _ _ Hle H2). }
    by constructor.
  - destruct (exceeds t1 (b_conf b)); [by constructor|done].
Qed.

(** C2: on every token sequence and threshold the page extractor returns a
    result (never the failure value); its boxes are exactly the tokens whose
    confidence is strictly above the threshold, unmodified and in detection
    order; its text is their texts joined by single spaces; its confidence is
    their arithmetic mean, and 0 with the empty text when none is kept.
    Tokens cat/70 and dog/40 at threshold 60 give "cat" and 70. *)
Theorem page_extractor_result (languages : string) (t : Q) (toks : list box) :
  (∃ r, process_image languages t (Ok (columns toks)) = Some r
      ∧ bounding_boxes r = Some (retained t toks)
      ∧ (∀ b, b ∈ retained t toks ↔ b ∈ toks ∧ (t < inject_Z (b_conf b))%Q)
      ∧ retained t toks `sublist_of` toks
      ∧ text r = String.concat " " (b_text <$> retained t toks)
      ∧ match retained t toks with
        | [] => confidence r = 0%Q ∧ text r = ""
        | kept =>
            (confidence r ==
             inject_Z (sumZ (b_conf <$> kept)) / inject_Z (Z.of_nat (length kept)))%Q
        end)
  ∧ process_image languages 60 (Ok (columns [token "cat" 70; token "dog" 40]))
    = Some {| text := "cat"; confidence := 70; language := languages;
              page_number := None;
              bounding_boxes := Some [token "cat" 70] |}.
Proof.
  split; [|reflexivity].
  eexists. split; [apply process_image_tokens|]. simpl.
  split; [done|]. split; [apply elem_of_retained|].
  split; [apply retained_all|].
  split; [done|].
  destruct (retained t toks) as [|b kept] eqn:Hk; [done|].
  rewrite <- (length_fmap b_conf). by apply avg_confidence_mean.
Qed.

(** C9: with the tokens fixed and the threshold raised from t1 to t2, the
    tokens kept at t2 are among those kept at t1, in the same order, so their
    number does not grow; every token kept at t2 has a confidence strictly
    above t2, and the text is made of those tokens only. *)
Theorem threshold_monotone (languages : string) (t1 t2 : Q) (toks : list box) :
  (t1 <= t2)%Q →
  ∃ r1 r2 kept1 kept2,
    process_image languages t1 (Ok (columns toks)) = Some r1
    ∧ process_image languages t2 (Ok (columns toks)) = Some r2
    ∧ bounding_boxes r1 = Some kept1
    ∧ bounding_boxes r2 = Some kept2
    ∧ kept2 `sublist_of` kept1
    ∧ (∀ b, b ∈ kept2 → b ∈ kept1)
    ∧ (length kept2 ≤ length kept1)%nat
    ∧ Forall (λ b, (t2 < inject_Z (b_conf b))%Q) kept2
    ∧ text r2 = String.concat " " (b_text <$> kept2).
Proof.
  intros Hle.
  eexists _, _, (retained t1 toks), (retained t2 toks).
  split; [apply process_image_tokens|]. split; [apply process_image_tokens|].
  simpl. pose proof (retained_sublist t1 t2 toks Hle) as Hsub.
  repeat split; try done.
  - intros b. by apply sublist_subseteq.
  - by apply sublist_length.
  - apply Forall_forall. intros b Hb. by apply elem_of_retained in Hb as [_ ?].
Qed.

Lemma threshold_monotone_witness :
  ∃ r1 r2 kept1 kept2,
    process_image "eng" 40 (Ok (columns [token "cat" 70; token "dog" 50])) = Some r1
    ∧ process_image "eng" 60 (Ok (columns [token "cat" 70; token "dog" 50])) = Some r2
    ∧ bounding_boxes r1 = Some kept1
    ∧ bounding_boxes r2 = Some kept2
    ∧ kept2 `sublist_of` kept1
    ∧ (∀ b, b ∈ kept2 → b ∈ kept1)
    ∧ (length kept2 ≤ length kept1)%nat
    ∧ Forall (λ b, (60 < inject_Z (b_conf b))%Q) kept2
    ∧ text r2 = String.concat " " (b_text <$> kept2).
Proof.
  apply (threshold_monotone "eng" 40 60 [token "cat" 70; token "dog" 50]).
  unfold Qle; simpl; lia.
Defined.

(** ** The document extractor: PDF pages *)

Section PdfPages.

Variables (languages : string) (t : Q).

Lemma run_pool_sound (pages : list (exc ocr_data)) (sched : list nat) i r :
  run_pool languages t pages sched !! i = Some r →
  ∃ image, pages !! i = Some image ∧ r = _process_pdf_page languages t image i.
Proof.
  unfold run_pool. revert r.
  induction sched as [|j sched IH] using rev_ind; intros r; simpl.
  - by rewrite lookup_empty.
  - rewrite foldl_app. simpl. unfold complete at 1.
    destruct (pages !! j) as [image|] eqn:Hj; [|by apply IH].
    destruct (decide (j = i)) as [->|Hne].
    + rewrite lookup_insert_eq. intros [= <-]. eauto.
    + rewrite lookup_insert_ne by done. apply IH.
Qed.

(** Whatever the workers have finished, a future yields what its own task
    returns. *)
Lemma future_result_pool (pages : list (exc ocr_data)) (sched : list nat) i image :
  pages !! i = Some image →
  future_result languages t (run_pool languages t pages sched) i image
  = _process_pdf_page languages t image i.
Proof.
  intros Hi. unfold future_result.
  destruct (run_pool languages t pages sched !! i) as [r|] eqn:Hr; [|done].
  apply run_pool_sound in Hr as (image' & Hi' & ->). congruence.
Qed.

Lemma gather_prefix (sched : list nat) (pre post : list (exc ocr_data)) :
  foldl (gather languages t (run_pool languages t (pre ++ post) sched)) []
        (enumerate pre)
  = omap id (page_results languages t pre).
Proof.
  revert post. induction pre as [|image pre IH] using rev_ind; intros post; [done|].
  rewrite enumerate_snoc, foldl_app. rewrite <- app_assoc. simpl.
  rewrite IH. unfold gather at 1. simpl.
  rewrite future_result_pool by (by apply list_lookup_middle).
  unfold page_results. rewrite imap_app, omap_app. simpl.
  rewrite Nat.add_0_r.
  destruct (_process_pdf_page _ _ _ _); [done|by rewrite app_nil_r].
Qed.

Lemma process_pdf_pages (pages : list (exc ocr_data)) (sched : list nat) :
  process_pdf languages t (Ok pages) sched = omap id (page_results languages t pages).
Proof.
  unfold process_pdf. pose proof (gather_prefix sched pages []) as H.
  by rewrite app_nil_r in H.
Qed.

Lemma page_results_snoc (pages : list (exc ocr_data)) image :
  page_results languages t (pages ++ [image]) =
  page_results languages t pages ++ [_process_pdf_page languages t image (length pages)].
Proof. unfold page_results. rewrite imap_app. simpl. by rewrite Nat.add_0_r. Qed.

Lemma page_texts (pages : list (exc ocr_data)) :
  text <$> omap id (page_results languages t pages)
  = omap (λ image, text <$> process_image languages t image) pages.
Proof.
  induction pages as [|image pages IH] using rev_ind; [done|].
  rewrite page_results_snoc, !omap_app, fmap_app, IH. f_equal. simpl.
  unfold _process_pdf_page. by destruct (process_image _ _ _).
Qed.

Lemma page_numbers (pages : list (exc ocr_data)) :
  ∃ idx, page_number <$> omap id (page_results languages t pages) = Some <$> idx
       ∧ StronglySorted lt idx
       ∧ Forall (λ i, i < length pages)%nat idx.
Proof.
  induction pages as [|image pages (idx & Hn & Hs & Hb)] using rev_ind.
  - exists []. repeat split; constructor.
  - rewrite page_results_snoc, omap_app, fmap_app, Hn, length_app. simpl.
    unfold _process_pdf_page. destruct (process_image _ _ _); simpl.
    + exists (idx ++ [length pages]). rewrite fmap_app. split; [done|]. split.
      * apply StronglySorted_app_2; [|done|repeat constructor].
        intros i j Hi ->%list_elem_of_singleton.
        by eapply Forall_forall in Hb.
      * apply Forall_app. split; [|repeat constructor; lia].
        eapply Forall_impl; [exact Hb|]. simpl. intros; lia.
    + exists idx. rewrite app_nil_r. repeat split; [done|].
      eapply Forall_impl; [exact Hb|]. simpl. intros; lia.
Qed.

Lemma page_count (pages : list (exc ocr_data)) :
  length (omap id (page_results languages t pages))
  = length (filter is_Some (page_results languages t pages)).
Proof.
  induction (page_results languages t pages) as [|[r|] l IH].
  - done.
  - rewrite filter_cons_True by eauto.
    change (omap id (Some r :: l)) with (r :: omap id l).
    rewrite !length_cons. by rewrite IH.
  - rewrite filter_cons_False by (by intros [? ?]). exact IH.
Qed.

Lemma page_results_failed (n k : nat) (msg : string) :
  omap id (imap (λ i image, _process_pdf_page languages t image (k + i))
                (replicate n (Raise msg))) = [].
Proof.
  revert k. induction n as [|n IH]; intros k; [done|]. simpl.
  rewrite <- (IH (S k)). f_equal. apply imap_ext. intros i x _. simpl.
  f_equal. lia.
Qed.

End PdfPages.

(** C3: for every completion order of the workers, the results of a PDF are
    those of the pages whose extraction succeeded, listed by strictly
    increasing page number (pages are numbered from 0), so the concatenation
    of their texts is the concatenation of the successful pages' texts in page
    order; a failed page is skipped; when no page succeeds, and also when
    rasterisation fails, the result is empty and nothing is raised. *)
Theorem process_pdf_page_order (languages : string) (t : Q)
    (pages : list (exc ocr_data)) (sched : list nat) :
  process_pdf languages t (Ok pages) sched = omap id (page_results languages t pages)
  ∧ text <$> process_pdf languages t (Ok pages) sched
    = omap (λ image, text <$> process_image languages t image) pages
  ∧ (∀ sep, String.concat sep (text <$> process_pdf languages t (Ok pages) sched)
            = String.concat sep
                (omap (λ image, text <$> process_image languages t image) pages))
  ∧ (∃ idx, page_number <$> process_pdf languages t (Ok pages) sched = Some <$> idx
          ∧ StronglySorted lt idx
          ∧ Forall (λ i, i < length pages)%nat idx)
  ∧ length (process_pdf languages t (Ok pages) sched)
    = length (filter is_Some (page_results languages t pages))
  ∧ (∀ n msg, process_pdf languages t (Ok (replicate n (Raise msg))) sched = [])
  ∧ (∀ msg, process_pdf languages t (Raise msg) sched = []).
Proof.
  rewrite !process_pdf_pages. split; [done|].
  split; [apply page_texts|]. split; [intros sep; by rewrite page_texts|].
  split; [apply page_numbers|]. split; [apply page_count|]. split; [|done].
  intros n msg. rewrite process_pdf_pages. apply (page_results_failed _ _ n 0).
Qed.

(** ** The document extractor: fallback *)

Lemma mapM_id_Some {A} (l : list A) : mapM id (Some <$> l) = Some l.
Proof. induction l as [|x l IH]; [done|]. rewrite fmap_cons. simpl. by rewrite IH. Qed.

Lemma join_pages_texts (texts : list string) :
  join_pages (Some <$> texts) = Ok (String.concat (String "010" "") texts).
Proof. unfold join_pages. by rewrite mapM_id_Some. Qed.

(** C6: [process_file] calls the primary path first, in every case.  When
    that call returns, its value is the result, also an empty one, and the
    text layer is not consulted.  The text layer is consulted exactly when
    the primary call raised and the name ends in .pdf (in any letter case).
    When the primary call raised and the text layer is not consulted or
    fails as well, the result is the failure value [None], which no
    extracted text, the empty text included, is equal to. *)
Theorem process_file_fallback (primary : exc (option string)) (file_path : string)
    (fallback : exc (list (option string))) (e e' : string) (v : option string)
    (texts : list string) :
  (∃ rest, (process_file primary file_path fallback).1
           = call_super_process_file :: rest)
  ∧ process_file (Ok v) file_path fallback = ([call_super_process_file], v)
  ∧ (call_pdfplumber ∈ (process_file primary file_path fallback).1
     ↔ (∃ msg, primary = Raise msg) ∧ endswith (lower file_path) ".pdf" = true)
  ∧ (process_file (Raise e) file_path (Ok (Some <$> texts))).2
    = (if endswith (lower file_path) ".pdf"
       then Some (String.concat (String "010" "") texts) else None)
  ∧ (process_file (Raise e) file_path (Raise e')).2 = None
  ∧ (process_file (Raise e) file_path (Ok ((Some <$> texts) ++ [None]))).2 = None
  ∧ (process_file (Raise e) file_path (Raise e')).2 ≠ Some ""
  ∧ (process_file (Ok (Some "")) file_path fallback).2 = Some ""
  ∧ (process_file (Raise e) "scan.PDF" (Ok [Some "one"; Some "two"])).2
    = Some (String.concat (String "010" "") ["one"; "two"])
  ∧ process_file (Raise e) "photo.png" (Ok [Some "one"])
    = ([call_super_process_file;
        log_warning ("OCR failed: " +:+ e +:+ ", attempting fallback text extraction")],
       None).
Proof.
  assert (∀ (l : list (option string)), mapM id (l ++ [None]) = None) as HNone.
  { induction l as [|[x|] l IH]; [done| |done]. simpl. by rewrite IH. }
  split.
  { unfold process_file. destruct primary; [eauto|].
    destruct (endswith _ _); [|eauto].
    destruct (exc_bind fallback join_pages); simpl; eauto. }
  split; [done|]. split.
  { unfold process_file. destruct primary as [v'|msg].
    - simpl. split.
      + intros H. repeat (apply elem_of_cons in H as [[=]|H]).
        by apply elem_of_nil in H.
      + intros [[? [=]] _].
    - destruct (endswith (lower file_path) ".pdf").
      + split; [eauto|]. intros _.
        destruct (exc_bind fallback join_pages); simpl; set_solver.
      + simpl. split; [|intros [_ [=]]].
        intros H. repeat (apply elem_of_cons in H as [[=]|H]).
        by apply elem_of_nil in H. }
  split.
  { unfold process_file. destruct (endswith _ _); [|done].
    simpl. by rewrite join_pages_texts. }
  split. { unfold process_file. by destruct (endswith _ _). }
  split.
  { unfold process_file. destruct (endswith _ _); [|done].
    simpl. unfold join_pages. by rewrite HNone. }
  split. { unfold process_file. by destruct (endswith _ _). }
  split; [done|]. split; reflexivity.
Qed.

(** ** The reconciler *)

Lemma foldl_add_file (st : gset path * list path) (l : list path) :
  foldl add_file st l = (list_to_set l ∪ st.1, st.2 ++ l).
Proof.
  revert st. induction l as [|f l IH]; intros [cur work]; simpl.
  - f_equal; [by rewrite union_empty_l_L|by rewrite app_nil_r].
  - rewrite IH. simpl. f_equal; [|by rewrite <- app_assoc].
    by rewrite (assoc_L (∪)), (comm_L (∪) (list_to_set l) {[f]}).
Qed.

Section Reliable.

Variables (W : World) (recursive : bool).

Lemma scan_entries (st : gset path * list path) (entries : list path) :
  for_each (scan_entry (reliable W)) st entries
  = Ok (foldl add_file st
          (List.filter (λ f, w_is_file W f && w_should_process W f) entries)).
Proof.
  revert st. induction entries as [|f entries IH]; intros st; [done|].
  simpl. unfold scan_entry at 1. simpl.
  destruct (w_is_file W f); simpl; [|by rewrite IH].
  destruct (w_should_process W f); simpl; by rewrite IH.
Qed.

Lemma scan_root_reliable (st : gset path * list path) (root : path) :
  scan_root (reliable W) recursive st root
  = Ok (foldl add_file st (candidates W recursive root)).
Proof.
  unfold scan_root, candidates. simpl.
  destruct (w_is_file W root); simpl.
  - by destruct (w_should_process W root).
  - destruct (w_is_dir W root); simpl; [|done]. apply scan_entries.
Qed.

Lemma scan_roots (st : gset path * list path) (paths : list path) :
  for_each (scan_root (reliable W) recursive) st paths
  = Ok (foldl add_file st (worklist W recursive paths)).
Proof.
  revert st. induction paths as [|root paths IH]; intros st; [done|].
  cbn [for_each]. rewrite scan_root_reliable. cbn [exc_bind]. rewrite IH.
  unfold worklist. rewrite bind_cons. by rewrite foldl_app.
Qed.

Lemma query_roots (prev : gset path) (paths : list path) :
  for_each (query_root (reliable W) recursive) prev paths
  = Ok (prev ∪ list_to_set (recorded W recursive paths)).
Proof.
  revert prev. induction paths as [|root paths IH]; intros prev.
  - simpl. f_equal. by rewrite union_empty_r_L.
  - cbn [for_each]. unfold query_root at 1. cbn [exc_bind reliable is_dir get_documents_in_directory].
    rewrite IH. f_equal. unfold recorded. rewrite bind_cons, list_to_set_app_L.
    fold (base_path W root). by rewrite (assoc_L (∪)).
Qed.

Lemma reconcile_reliable (paths : list path) :
  reconcile (reliable W) paths recursive
  = Ok {| files_to_process := worklist W recursive paths;
          current_files := list_to_set (worklist W recursive paths);
          previous_files := list_to_set (recorded W recursive paths);
          deleted_files := list_to_set (recorded W recursive paths)
                           ∖ list_to_set (worklist W recursive paths) |}.
Proof.
  unfold reconcile. rewrite scan_roots, query_roots, foldl_add_file. simpl.
  rewrite !union_empty_r_L, !union_empty_l_L. done.
Qed.

Lemma elem_of_worklist (paths : list path) f :
  f ∈ worklist W recursive paths
  ↔ ∃ root, root ∈ paths ∧ f ∈ candidates W recursive root.
Proof. unfold worklist. rewrite list_elem_of_bind. naive_solver. Qed.

Lemma elem_of_recorded (paths : list path) f :
  f ∈ recorded W recursive paths
  ↔ ∃ root, root ∈ paths ∧ f ∈ w_documents W (base_path W root) recursive.
Proof. unfold recorded. rewrite list_elem_of_bind. naive_solver. Qed.

Lemma perform_reliable (ev : path → event) (l : list path) rest :
  perform (((λ f, (ev f, Ok ())) <$> l) ++ rest)
  = (((ev <$> l) ++ (perform rest).1), (perform rest).2).
Proof.
  induction l as [|f l IH]; [simpl; by destruct (perform rest)|].
  rewrite !fmap_cons, <- !app_comm_cons. cbn [perform]. by rewrite IH.
Qed.

End Reliable.

(** Whatever the collaborators answer, the worklist and the set of current
    files hold the same paths. *)
Lemma for_each_invariant {A S} (body : S → A → exc S) (I : S → Prop) :
  (∀ st x st', body st x = Ok st' → I st → I st') →
  ∀ l st st', for_each body st l = Ok st' → I st → I st'.
Proof.
  intros Hbody. induction l as [|x l IH]; intros st st'; simpl.
  - by intros [= <-].
  - destruct (body st x) as [st1|] eqn:Hx; simpl; [|done].
    intros Hl Hst. eapply IH; [exact Hl|]. by eapply Hbody.
Qed.

Lemma add_file_in_step st f : in_step st → in_step (add_file st f).
Proof.
  intros H g. unfold add_file. simpl.
  rewrite elem_of_union, elem_of_singleton, elem_of_app, list_elem_of_singleton.
  rewrite (H g). tauto.
Qed.

Lemma scan_entry_in_step (E : Env) st f st' :
  scan_entry E st f = Ok st' → in_step st → in_step st'.
Proof.
  unfold scan_entry. destruct (is_file E f) as [[|]|]; simpl; [| |done].
  - destruct (should_process_file E f) as [[|]|]; simpl; [| |done].
    + intros [= <-]. apply add_file_in_step.
    + by intros [= <-].
  - by intros [= <-].
Qed.

Lemma scan_root_in_step (E : Env) recursive st root st' :
  scan_root E recursive st root = Ok st' → in_step st → in_step st'.
Proof.
  unfold scan_root. destruct (is_file E root) as [[|]|]; simpl; [| |done].
  - destruct (should_process_file E root) as [[|]|]; simpl; [| |done].
    + intros [= <-]. apply add_file_in_step.
    + by intros [= <-].
  - destruct (is_dir E root) as [[|]|]; simpl; [| |done].
    + destruct (glob E root _) as [entries|]; simpl; [|done].
      apply for_each_invariant. apply scan_entry_in_step.
    + by intros [= <-].
Qed.

Lemma reconcile_in_step (E : Env) paths recursive pl :
  reconcile E paths recursive = Ok pl →
  (∀ f, f ∈ current_files pl ↔ f ∈ files_to_process pl)
  ∧ deleted_files pl = previous_files pl ∖ current_files pl.
Proof.
  unfold reconcile.
  destruct (for_each (scan_root E recursive) _ paths) as [st|] eqn:Hscan; simpl; [|done].
  destruct (for_each (query_root E recursive) _ paths) as [prev|]; simpl; [|done].
  intros [= <-]. simpl. split; [|done].
  eapply (for_each_invariant _ in_step); [|exact Hscan|].
  - intros ? ? ?. apply scan_root_in_step.
  - intros f. simpl. rewrite elem_of_empty, elem_of_nil. tauto.
Qed.

(** The run of [process] when no collaborator raises. *)
Lemma process_reliable (W : World) (paths : list path) (recursive : bool) :
  process (reliable W) paths recursive false
  = {| trace :=
         if bool_decide (worklist W recursive paths = [])
            && bool_decide (list_to_set (recorded W recursive paths)
                            ∖ list_to_set (worklist W recursive paths) = (∅ : gset path))
         then [print_warning "No changes detected"]
         else (call_remove_document
                 <$> elements (list_to_set (recorded W recursive paths)
                               ∖ list_to_set (worklist W recursive paths) : gset path))
              ++ (call_ingest_file <$> worklist W recursive paths);
       aborted := false |}.
Proof.
  unfold process. rewrite reconcile_reliable. cbn [files_to_process deleted_files].
  destruct (_ && _); [done|]. cbn [reliable remove_document ingest_file].
  rewrite perform_reliable.
  pose proof (perform_reliable call_ingest_file (worklist W recursive paths) []) as H.
  rewrite app_nil_r in H. rewrite H. simpl. by rewrite app_nil_r.
Qed.

Lemma ingest_in_calls (rm work : list path) f :
  call_ingest_file f ∈ (call_remove_document <$> rm) ++ (call_ingest_file <$> work)
  ↔ f ∈ work.
Proof.
  rewrite elem_of_app, !list_elem_of_fmap. split.
  - intros [(x & [=] & _)|(x & [= ->] & Hx)]; done.
  - intros H; right; eauto.
Qed.

Lemma remove_in_calls (rm work : list path) f :
  call_remove_document f ∈ (call_remove_document <$> rm) ++ (call_ingest_file <$> work)
  ↔ f ∈ rm.
Proof.
  rewrite elem_of_app, !list_elem_of_fmap. split.
  - intros [(x & [= ->] & Hx)|(x & [=] & _)]; done.
  - intros H; left; eauto.
Qed.

Lemma ingest_in_trace (W : World) (paths : list path) (recursive : bool) f :
  call_ingest_file f ∈ trace (process (reliable W) paths recursive false)
  ↔ f ∈ worklist W recursive paths.
Proof.
  rewrite process_reliable. cbn [trace].
  destruct (_ && _) eqn:Hb; [|apply ingest_in_calls].
  apply andb_true_iff in Hb as [Hw _]. apply bool_decide_eq_true in Hw.
  rewrite Hw, list_elem_of_singleton, elem_of_nil. split; [done|tauto].
Qed.

Lemma remove_in_trace (W : World) (paths : list path) (recursive : bool) f :
  call_remove_document f ∈ trace (process (reliable W) paths recursive false)
  ↔ f ∈ (list_to_set (recorded W recursive paths)
         ∖ list_to_set (worklist W recursive paths) : gset path).
Proof.
  rewrite process_reliable. cbn [trace].
  destruct (_ && _) eqn:Hb.
  - apply andb_true_iff in Hb as [_ Hd]. apply bool_decide_eq_true in Hd.
    rewrite Hd, list_elem_of_singleton, elem_of_empty. split; [done|tauto].
  - rewrite remove_in_calls. apply elem_of_elements.
Qed.

(** C1: the plan retires previous − current and processes current, not
    current − previous: the worklist holds exactly the files the roots
    contribute (present and accepted), recorded or not, every one of them is
    handed to ingest, and the retired paths are exactly the recorded ones
    that are not current.  With a directory holding a.pdf and b.png and a
    store reporting a.pdf and c.txt under it, the plan processes a.pdf and
    b.png and retires c.txt. *)
Theorem plan_sets (W : World) (paths : list path) (recursive : bool) :
  (∃ pl, reconcile (reliable W) paths recursive = Ok pl
       ∧ deleted_files pl = previous_files pl ∖ current_files pl
       ∧ list_to_set (files_to_process pl) = current_files pl
       ∧ (∀ f, f ∈ files_to_process pl
               ↔ ∃ root, root ∈ paths ∧ f ∈ candidates W recursive root)
       ∧ (∀ f, f ∈ previous_files pl
               ↔ ∃ root, root ∈ paths ∧ f ∈ w_documents W (base_path W root) recursive)
       ∧ (∀ f, f ∈ deleted_files pl ↔ f ∈ previous_files pl ∧ f ∉ current_files pl)
       ∧ (∀ f, f ∈ files_to_process pl
               ↔ call_ingest_file f ∈ trace (process (reliable W) paths recursive false))
       ∧ (∀ f, f ∈ deleted_files pl
               ↔ call_remove_document f ∈ trace (process (reliable W) paths recursive false)))
  ∧ reconcile (reliable (docs_world ["a.pdf"; "b.png"] ["a.pdf"; "c.txt"])) [["docs"]] recursive
    = Ok {| files_to_process := [["docs"; "a.pdf"]; ["docs"; "b.png"]];
            current_files := {[ ["docs"; "a.pdf"]; ["docs"; "b.png"] ]};
            previous_files := {[ ["docs"; "a.pdf"]; ["docs"; "c.txt"] ]};
            deleted_files := {[ ["docs"; "c.txt"] ]} |}
  ∧ process (reliable (docs_world ["a.pdf"; "b.png"] ["a.pdf"; "c.txt"])) [["docs"]]
            recursive false
    = {| trace := [call_remove_document ["docs"; "c.txt"];
                   call_ingest_file ["docs"; "a.pdf"];
                   call_ingest_file ["docs"; "b.png"]];
         aborted := false |}.
Proof.
  split; [|split; destruct recursive; vm_compute; reflexivity].
  eexists. split; [apply reconcile_reliable|]. simpl.
  split; [done|]. split; [done|]. split; [apply elem_of_worklist|].
  split. { intros f. rewrite elem_of_list_to_set. apply elem_of_recorded. }
  split. { intros f. apply elem_of_difference. }
  split. { intros f. symmetry. apply ingest_in_trace. }
  intros f. symmetry. apply remove_in_trace.
Qed.

(** C4: in every plan the worklist and the retired set share no path: a path
    that is current is never retired, whatever the store has recorded for
    it. *)
Theorem plan_disjoint (E : Env) (paths : list path) (recursive : bool) (pl : plan) :
  reconcile E paths recursive = Ok pl →
  list_to_set (files_to_process pl) ∩ deleted_files pl = (∅ : gset path)
  ∧ current_files pl ∩ deleted_files pl = ∅
  ∧ (∀ f, f ∈ files_to_process pl → f ∉ deleted_files pl).
Proof.
  intros [Hstep ->]%reconcile_in_step.
  assert (∀ f, f ∈ files_to_process pl →
               f ∉ previous_files pl ∖ current_files pl) as Hnot.
  { intros f Hf [_ Hn]%elem_of_difference. apply Hn. by apply Hstep. }
  split; [|split; [|exact Hnot]].
  - apply set_eq. intros f.
    rewrite elem_of_intersection, elem_of_list_to_set, elem_of_empty.
    split; [|done]. intros [Hf Hd]. by apply (Hnot f).
  - apply set_eq. intros f.
    rewrite elem_of_intersection, elem_of_difference, elem_of_empty. tauto.
Qed.

Lemma plan_disjoint_witness :
  let pl := {| files_to_process := [["docs"; "a.pdf"]; ["docs"; "b.png"]];
               current_files := {[ ["docs"; "a.pdf"]; ["docs"; "b.png"] ]};
               previous_files := {[ ["docs"; "a.pdf"]; ["docs"; "c.txt"] ]};
               deleted_files := {[ ["docs"; "c.txt"] ]} |} in
  reconcile (reliable (docs_world ["a.pdf"; "b.png"] ["a.pdf"; "c.txt"])) [["docs"]] false
  = Ok pl
  ∧ list_to_set (files_to_process pl) ∩ deleted_files pl = (∅ : gset path)
  ∧ current_files pl ∩ deleted_files pl = ∅
  ∧ (∀ f, f ∈ files_to_process pl → f ∉ deleted_files pl).
Proof.
  intros pl.
  assert (reconcile (reliable (docs_world ["a.pdf"; "b.png"] ["a.pdf"; "c.txt"]))
                    [["docs"]] false = Ok pl) as H by (vm_compute; reflexivity).
  split; [exact H|].
  exact (plan_disjoint _ _ _ _ H).
Defined.

(** The queries of the second loop of [process]: the store is asked with
    [base_path], which is the root for a directory and [path.parent] for any
    other root, and the answers are united. *)
Lemma previous_from_base_paths (W : World) (paths : list path) (recursive : bool) :
  ∃ pl, reconcile (reliable W) paths recursive = Ok pl
      ∧ previous_files pl
        = list_to_set
            (paths ≫= λ root,
               w_documents W (if w_is_dir W root then root else parent root) recursive)
      ∧ (∀ f, f ∈ deleted_files pl →
              ∃ root, root ∈ paths
                    ∧ f ∈ w_documents W (if w_is_dir W root then root else parent root)
                                      recursive)
      ∧ (∀ root f, root ∈ paths → w_is_dir W root = true →
                   f ∈ w_documents W root recursive → f ∈ previous_files pl).
Proof.
  eexists. split; [apply reconcile_reliable|]. simpl. split; [done|]. split.
  - intros f [Hf _]%elem_of_difference.
    apply elem_of_list_to_set, elem_of_recorded in Hf. exact Hf.
  - intros root f Hroot Hdir Hf. apply elem_of_list_to_set, elem_of_recorded.
    exists root. split; [done|]. unfold base_path. by rewrite Hdir.
Qed.

(** C5: the code breaks the claim on a file root.  With the scope
    [docs/a.pdf] and a store that has [docs/a.pdf] and [docs/b.pdf] recorded
    under [docs], the store is asked about [docs] instead of the root, and
    [docs/b.pdf], which is on disk, was never enumerated and is recorded
    under no root of the scope, lands in [deleted_files] and is removed from
    the archive.  With the directory [docs] as the root, the same disk and
    store give nothing to remove. *)
Theorem file_root_queries_parent :
  (∃ pl, reconcile (reliable (docs_world ["a.pdf"; "b.pdf"] ["a.pdf"; "b.pdf"]))
                   [["docs"; "a.pdf"]] false = Ok pl
       ∧ ["docs"; "b.pdf"] ∈ deleted_files pl
       ∧ w_is_file (docs_world ["a.pdf"; "b.pdf"] ["a.pdf"; "b.pdf"]) ["docs"; "b.pdf"] = true
       ∧ w_documents (docs_world ["a.pdf"; "b.pdf"] ["a.pdf"; "b.pdf"])
                     ["docs"; "a.pdf"] false = []
       ∧ previous_files pl
         ≠ list_to_set
             ([["docs"; "a.pdf"]] ≫= λ root,
                w_documents (docs_world ["a.pdf"; "b.pdf"] ["a.pdf"; "b.pdf"]) root false)
       ∧ ¬ (∀ f, f ∈ deleted_files pl →
                 ∃ root, root ∈ [["docs"; "a.pdf"]]
                       ∧ f ∈ w_documents (docs_world ["a.pdf"; "b.pdf"] ["a.pdf"; "b.pdf"])
                                         root false))
  ∧ process (reliable (docs_world ["a.pdf"; "b.pdf"] ["a.pdf"; "b.pdf"]))
            [["docs"; "a.pdf"]] false false
    = {| trace := [call_remove_document ["docs"; "b.pdf"];
                   call_ingest_file ["docs"; "a.pdf"]];
         aborted := false |}
  ∧ process (reliable (docs_world ["a.pdf"; "b.pdf"] ["a.pdf"; "b.pdf"]))
            [["docs"]] false false
    = {| trace := [call_ingest_file ["docs"; "a.pdf"];
                   call_ingest_file ["docs"; "b.pdf"]];
         aborted := false |}.
Proof.
  split; [|split; vm_compute; reflexivity].
  eexists. split; [apply reconcile_reliable|].
  assert (["docs"; "b.pdf"] ∈
          (list_to_set (recorded (docs_world ["a.pdf"; "b.pdf"] ["a.pdf"; "b.pdf"]) false
                                 [["docs"; "a.pdf"]])
           ∖ list_to_set (worklist (docs_world ["a.pdf"; "b.pdf"] ["a.pdf"; "b.pdf"]) false
                                   [["docs"; "a.pdf"]]) : gset path)) as Hin.
  { apply (bool_decide_unpack _). vm_compute. exact I. }
  cbn [deleted_files previous_files].
  split; [exact Hin|]. split; [reflexivity|]. split; [reflexivity|]. split.
  - intros Heq. apply elem_of_difference in Hin as [Hin _].
    rewrite Heq in Hin. apply elem_of_list_to_set in Hin.
    vm_compute in Hin. by apply elem_of_nil in Hin.
  - intros Hall. destruct (Hall _ Hin) as (root & Hroot & Hf).
    apply list_elem_of_singleton in Hroot as ->.
    vm_compute in Hf. by apply elem_of_nil in Hf.
Qed.

(** ** Failures while enumerating a root *)

Lemma for_each_raise_at {A S} (body : S → A → exc S) (before after : list A) x :
  (∀ st, ∃ msg, body st x = Raise msg) →
  ∀ st, ∃ msg, for_each body st (before ++ x :: after) = Raise msg.
Proof.
  intros Hx. induction before as [|y before IH]; intros st; simpl.
  - destruct (Hx st) as [msg ->]. eauto.
  - destruct (body st y) as [st'|msg]; simpl; [apply IH|eauto].
Qed.

Lemma reconcile_raise_at (E : Env) (recursive : bool) (before after : list path) r :
  (∀ st, ∃ msg, scan_root E recursive st r = Raise msg)
  ∨ (∀ prev, ∃ msg, query_root E recursive prev r = Raise msg) →
  ∃ msg, reconcile E (before ++ r :: after) recursive = Raise msg.
Proof.
  unfold reconcile. intros [Hscan|Hquery].
  - destruct (for_each_raise_at _ before after r Hscan (∅, [])) as [msg ->]. eauto.
  - destruct (for_each (scan_root E recursive) _ _) as [st|msg]; simpl; [|eauto].
    destruct (for_each_raise_at _ before after r Hquery ∅) as [msg ->]. eauto.
Qed.

(** C7, as the code has it: [process] has one handler around the whole
    command, so when the enumeration of one root raises, whether in the scan
    of the files or in the query to the store, no plan is made: the command
    reports the failure and aborts, and neither ingest nor retire is called
    for any root. *)
Theorem root_failure_aborts (E : Env) (recursive dry_run : bool)
    (before after : list path) (r : path) :
  (∀ st, ∃ msg, scan_root E recursive st r = Raise msg)
  ∨ (∀ prev, ∃ msg, query_root E recursive prev r = Raise msg) →
  ∃ msg, reconcile E (before ++ r :: after) recursive = Raise msg
       ∧ process E (before ++ r :: after) recursive dry_run
         = {| trace := [print_error ("Processing failed: " +:+ msg)];
              aborted := true |}.
Proof.
  intros H. destruct (reconcile_raise_at E recursive before after r H) as [msg Hmsg].
  exists msg. split; [done|]. unfold process. by rewrite Hmsg.
Qed.

Lemma root_failure_aborts_witness :
  ∃ msg, reconcile denied ([] ++ ["locked"] :: [["open"]]) false = Raise msg
       ∧ process denied ([] ++ ["locked"] :: [["open"]]) false false
         = {| trace := [print_error ("Processing failed: " +:+ msg)];
              aborted := true |}.
Proof.
  apply (root_failure_aborts denied false false [] [["open"]] ["locked"]).
  left. intros st. eexists. reflexivity.
Defined.

(** C7, as stated, fails: with the roots [locked], whose [stat] is refused,
    and [open], which holds a.pdf, the command aborts without ingesting
    a.pdf, while on [open] alone it ingests it. *)
Lemma root_failure_not_isolated :
  process denied [["locked"]; ["open"]] false false
  = {| trace := [print_error "Processing failed: [Errno 13] Permission denied"];
       aborted := true |}
  ∧ process denied [["open"]] false false
    = {| trace := [call_ingest_file ["open"; "a.pdf"]]; aborted := false |}
  ∧ (call_ingest_file ["open"; "a.pdf"]
     ∉ trace (process denied [["locked"]; ["open"]] false false))
  ∧ (process denied [["locked"]; ["open"]] false false
     ≠ process denied [["open"]] false false).
Proof.
  assert (process denied [["locked"]; ["open"]] false false
          = {| trace := [print_error "Processing failed: [Errno 13] Permission denied"];
               aborted := true |}) as H1 by (vm_compute; reflexivity).
  assert (process denied [["open"]] false false
          = {| trace := [call_ingest_file ["open"; "a.pdf"]]; aborted := false |})
    as H2 by (vm_compute; reflexivity).
  rewrite H1, H2. split; [done|]. split; [done|]. split; [|done].
  cbn [trace]. intros H%list_elem_of_singleton. discriminate.
Qed.

(** ** The watch callback *)

Lemma any_match_reliable (W : World) (p : path) (excluded : list string) :
  any_match (reliable W) p excluded = Ok (existsb (w_match W p) excluded).
Proof.
  induction excluded as [|pattern rest IH]; [done|]. simpl.
  by destruct (w_match W p pattern).
Qed.

(** C8, on the code: an event for a directory calls nothing, whatever its
    type; a created or modified event for a file calls ingest unless an
    exclusion pattern matches; but a deleted event for a file calls retire
    for every list of exclusion patterns, the patterns are not consulted:
    with the pattern [*.tmp] configured, the deletion of docs/notes.tmp,
    which the pattern matches, calls retire, while its creation is dropped. *)
Theorem deleted_event_skips_exclusion (E : Env) (W : World) (excluded : list string)
    (ty : string) (p : path) :
  handle_event E excluded {| event_type := ty; ev_path := p; is_directory := true |} = []
  ∧ handle_event (reliable W) excluded
      {| event_type := "created"; ev_path := p; is_directory := false |}
    = (if existsb (w_match W p) excluded then [] else [call_ingest_file p])
  ∧ handle_event (reliable W) excluded
      {| event_type := "modified"; ev_path := p; is_directory := false |}
    = (if existsb (w_match W p) excluded then [] else [call_ingest_file p])
  ∧ (∃ rest, handle_event E excluded
               {| event_type := "deleted"; ev_path := p; is_directory := false |}
             = call_remove_document p :: rest)
  ∧ match_name ["docs"; "notes.tmp"] "*.tmp" = true
  ∧ handle_event (reliable (docs_world [] [])) ["*.tmp"]
      {| event_type := "deleted"; ev_path := ["docs"; "notes.tmp"];
         is_directory := false |}
    = [call_remove_document ["docs"; "notes.tmp"]]
  ∧ handle_event (reliable (docs_world [] [])) ["*.tmp"]
      {| event_type := "created"; ev_path := ["docs"; "notes.tmp"];
         is_directory := false |}
    = []
  ∧ handle_event (reliable (docs_world [] [])) ["*.tmp"]
      {| event_type := "modified"; ev_path := ["docs"; "notes.pdf"];
         is_directory := false |}
    = [call_ingest_file ["docs"; "notes.pdf"]].
Proof.
  split.
  { unfold handle_event. cbn [event_type is_directory].
    destruct (bool_decide (ty ∈ _)); [done|]. by destruct (bool_decide (ty = _)). }
  split.
  { unfold handle_event. cbn [event_type is_directory ev_path].
    rewrite bool_decide_eq_true_2 by (repeat constructor).
    rewrite any_match_reliable. by destruct (existsb _ _). }
  split.
  { unfold handle_event. cbn [event_type is_directory ev_path].
    rewrite bool_decide_eq_true_2 by (repeat constructor).
    rewrite any_match_reliable. by destruct (existsb _ _). }
  split.
  { unfold handle_event. cbn [event_type is_directory ev_path].
    rewrite bool_decide_eq_false_2.
    2:{ intros H. repeat (apply elem_of_cons in H as [[=]|H]). by apply elem_of_nil in H. }
    rewrite bool_decide_eq_true_2 by done. unfold finish. cbn [fst snd].
    destruct (remove_document E p); simpl; eauto. }
  repeat split; vm_compute; reflexivity.
Qed.

(** ** Overlapping roots *)

Section Overlap.

Context {A : Type} `{EqDecision A}.

Lemma count_NoDup (x : A) (l : list A) :
  NoDup l → length (filter (x =.) l) = if decide (x ∈ l) then 1 else 0.
Proof.
  induction 1 as [|y l Hy Hl IH]; [done|].
  destruct (decide (x = y)) as [<-|Hne].
  - rewrite filter_cons_True by done. rewrite decide_True by constructor.
    cbn [length]. rewrite IH. by rewrite decide_False.
  - rewrite filter_cons_False by done. rewrite IH.
    destruct (decide (x ∈ l)) as [Hin|Hin].
    + rewrite decide_True; [done|]. by constructor.
    + rewrite decide_False; [done|]. by intros [?|?]%elem_of_cons.
Qed.

Lemma count_fmap_inj {B} `{EqDecision B} (g : A → B) `{!Inj (=) (=) g} (x : A) l :
  length (filter (g x =.) (g <$> l)) = length (filter (x =.) l).
Proof.
  induction l as [|y l IH]; [done|]. rewrite fmap_cons.
  destruct (decide (x = y)) as [<-|Hne].
  - rewrite !filter_cons_True by done. cbn [length]. by rewrite IH.
  - rewrite !filter_cons_False; [done|done|]. by intros ?%(inj g).
Qed.

Lemma count_fmap_other {B} `{EqDecision B} (g : A → B) (b : B) l :
  (∀ y, b ≠ g y) → length (filter (b =.) (g <$> l)) = 0.
Proof.
  intros Hb. induction l as [|y l IH]; [done|]. rewrite fmap_cons.
  by rewrite filter_cons_False.
Qed.

End Overlap.

Lemma candidates_NoDup (W : World) (recursive : bool) (root : path) :
  (∀ r pattern, NoDup (w_glob W r pattern)) → NoDup (candidates W recursive root).
Proof.
  intros Hglob. unfold candidates. destruct (w_is_file W root).
  - destruct (w_should_process W root); [apply NoDup_singleton|constructor].
  - destruct (w_is_dir W root); [|constructor].
    apply NoDup_ListNoDup, List.NoDup_filter, NoDup_ListNoDup, Hglob.
Qed.

Lemma worklist_count (W : World) (recursive : bool) (paths : list path) (f : path) :
  (∀ r pattern, NoDup (w_glob W r pattern)) →
  length (filter (f =.) (worklist W recursive paths))
  = length (filter (λ root, f ∈ candidates W recursive root) paths).
Proof.
  intros Hglob. induction paths as [|root paths IH]; [done|].
  unfold worklist. rewrite bind_cons, filter_app, length_app.
  fold (worklist W recursive paths). rewrite IH.
  rewrite (count_NoDup f) by by apply candidates_NoDup.
  destruct (decide (f ∈ candidates W recursive root)).
  - by rewrite filter_cons_True.
  - by rewrite filter_cons_False.
Qed.

Instance call_ingest_file_inj : Inj (=) (=) call_ingest_file.
Proof. by intros ? ? [=]. Qed.

Lemma ingest_count (W : World) (recursive : bool) (paths : list path) (f : path) :
  length (filter (call_ingest_file f =.)
                 (trace (process (reliable W) paths recursive false)))
  = length (filter (f =.) (worklist W recursive paths)).
Proof.
  rewrite process_reliable. cbn [trace].
  destruct (_ && _) eqn:Hb.
  - apply andb_true_iff in Hb as [Hw _]. apply bool_decide_eq_true in Hw.
    rewrite Hw. rewrite filter_cons_False by (intros [=]). done.
  - rewrite filter_app, length_app, count_fmap_other by done.
    by rewrite (count_fmap_inj call_ingest_file).
Qed.

(** C10: when the listing of a directory names every entry once, a file is
    put on the worklist once for every root that contributes it, and ingest
    is called that many times in the run, while the set of current files
    holds it once.  The directory [docs] given twice, or together with its
    file [docs/a.pdf], puts a.pdf on the worklist twice. *)
Theorem overlapping_roots (W : World) (paths : list path) (recursive : bool) (f : path) :
  (∀ root pattern, NoDup (w_glob W root pattern)) →
  (∃ pl, reconcile (reliable W) paths recursive = Ok pl
       ∧ length (filter (f =.) (files_to_process pl))
         = length (filter (λ root, f ∈ candidates W recursive root) paths)
       ∧ length (filter (call_ingest_file f =.)
                        (trace (process (reliable W) paths recursive false)))
         = length (filter (λ root, f ∈ candidates W recursive root) paths)
       ∧ (f ∈ current_files pl ↔ ∃ root, root ∈ paths ∧ f ∈ candidates W recursive root)
       ∧ (length (filter (f =.) (elements (current_files pl))) ≤ 1)%nat)
  ∧ process (reliable (docs_world ["a.pdf"; "b.png"] [])) [["docs"]; ["docs"]]
            recursive false
    = {| trace := call_ingest_file
                    <$> [["docs"; "a.pdf"]; ["docs"; "b.png"];
                         ["docs"; "a.pdf"]; ["docs"; "b.png"]];
         aborted := false |}
  ∧ process (reliable (docs_world ["a.pdf"; "b.png"] [])) [["docs"]; ["docs"; "a.pdf"]]
            recursive false
    = {| trace := call_ingest_file
                    <$> [["docs"; "a.pdf"]; ["docs"; "b.png"]; ["docs"; "a.pdf"]];
         aborted := false |}.
Proof.
  intros Hglob. split; [|split; destruct recursive; vm_compute; reflexivity].
  eexists. split; [apply reconcile_reliable|]. cbn [files_to_process current_files].
  split; [by apply worklist_count|].
  split; [by rewrite ingest_count; apply worklist_count|].
  split. { rewrite elem_of_list_to_set. apply elem_of_worklist. }
  rewrite (count_NoDup f) by apply NoDup_elements.
  destruct (decide _); lia.
Qed.

Lemma overlapping_roots_witness :
  (∃ pl, reconcile (reliable (docs_world ["a.pdf"; "b.png"] []))
                   [["docs"]; ["docs"; "a.pdf"]] false = Ok pl
       ∧ length (filter (["docs"; "a.pdf"] =.) (files_to_process pl))
         = length (filter (λ root, ["docs"; "a.pdf"]
                                   ∈ candidates (docs_world ["a.pdf"; "b.png"] []) false root)
                          [["docs"]; ["docs"; "a.pdf"]])
       ∧ length (filter (call_ingest_file ["docs"; "a.pdf"] =.)
                        (trace (process (reliable (docs_world ["a.pdf"; "b.png"] []))
                                        [["docs"]; ["docs"; "a.pdf"]] false false)))
         = length (filter (λ root, ["docs"; "a.pdf"]
                                   ∈ candidates (docs_world ["a.pdf"; "b.png"] []) false root)
                          [["docs"]; ["docs"; "a.pdf"]])
       ∧ (["docs"; "a.pdf"] ∈ current_files pl
          ↔ ∃ root, root ∈ [["docs"]; ["docs"; "a.pdf"]]
                  ∧ ["docs"; "a.pdf"]
                    ∈ candidates (docs_world ["a.pdf"; "b.png"] []) false root)
       ∧ (length (filter (["docs"; "a.pdf"] =.) (elements (current_files pl))) ≤ 1)%nat)
  ∧ process (reliable (docs_world ["a.pdf"; "b.png"] [])) [["docs"]; ["docs"]]
            false false
    = {| trace := call_ingest_file
                    <$> [["docs"; "a.pdf"]; ["docs"; "b.png"];
                         ["docs"; "a.pdf"]; ["docs"; "b.png"]];
         aborted := false |}
  ∧ process (reliable (docs_world ["a.pdf"; "b.png"] [])) [["docs"]; ["docs"; "a.pdf"]]
            false false
    = {| trace := call_ingest_file
                    <$> [["docs"; "a.pdf"]; ["docs"; "b.png"]; ["docs"; "a.pdf"]];
         aborted := false |}.
Proof.
  apply (overlapping_roots (docs_world ["a.pdf"; "b.png"] [])
                           [["docs"]; ["docs"; "a.pdf"]] false ["docs"; "a.pdf"]).
  intros root pattern. simpl. destruct (bool_decide (root = ["docs"])).
  - apply (bool_decide_unpack _). vm_compute. exact I.
  - constructor.
Defined.

(** With the roots [docs] and [docs/a.pdf], a.pdf is contributed by both. *)
Lemma overlap_count_two :
  length (filter (λ root, ["docs"; "a.pdf"]
                          ∈ candidates (docs_world ["a.pdf"; "b.png"] []) false root)
                 [["docs"]; ["docs"; "a.pdf"]]) = 2.
Proof. vm_compute. reflexivity. Qed.

(** * Further properties of the code *)

(** ** [process_image] on arbitrary engine output *)

Section Columns.

Variables (d : ocr_data) (t : Q).

Lemma append_no_parts a : append_parts a no_parts = a.
Proof. destruct a. unfold append_parts. simpl. by rewrite !app_nil_r. Qed.

Lemma fold_visit_None (l : list (nat * Z)) : foldl (visit d t) None l = None.
Proof. induction l as [|ic l IH]; [done|]. exact IH. Qed.

Lemma visit_cell a ic :
  exceeds t ic.2 = true →
  visit d t (Some a) ic = (λ b, append_parts a (parts_of [b])) <$> cell d ic.
Proof.
  intros Hx. unfold visit, cell. simpl. rewrite Hx.
  destruct (d_text d !! ic.1); simpl; [|done].
  destruct (d_left d !! ic.1); simpl; [|done].
  destruct (d_top d !! ic.1); simpl; [|done].
  destruct (d_width d !! ic.1); simpl; [|done].
  by destruct (d_height d !! ic.1).
Qed.

Lemma fold_visit (l : list (nat * Z)) a :
  foldl (visit d t) (Some a) l
  = (λ bs, append_parts a (parts_of bs))
      <$> mapM (cell d) (List.filter (λ ic, exceeds t ic.2) l).
Proof.
  revert a. induction l as [|ic l IH]; intros a.
  - simpl. by rewrite append_no_parts.
  - cbn [foldl List.filter]. destruct (exceeds t ic.2) eqn:Hx.
    + rewrite visit_cell by done. cbn [mapM].
      destruct (cell d ic) as [b|]; simpl; [|apply fold_visit_None].
      rewrite IH. destruct (mapM _ _) as [bs|]; simpl; [|done].
      f_equal. unfold append_parts, parts_of. simpl.
      by rewrite <- !app_assoc.
    + replace (visit d t (Some a) ic) with (Some a); [apply IH|].
      unfold visit. simpl. by rewrite Hx.
Qed.

Lemma collect_parts_cells :
  collect_parts d t = parts_of <$> mapM (cell d) (selected d t).
Proof.
  unfold collect_parts. rewrite fold_visit. fold (selected d t).
  by destruct (mapM _ _) as [bs|].
Qed.

Lemma elem_of_enumerate {A} (l : list A) i x :
  (i, x) ∈ enumerate l ↔ l !! i = Some x.
Proof.
  unfold enumerate. rewrite elem_of_lookup_imap. split.
  - intros (j & y & [= -> ->] & Hj). done.
  - intros Hi. eauto.
Qed.

Lemma elem_of_selected i c :
  (i, c) ∈ selected d t ↔ d_conf d !! i = Some c ∧ (t < inject_Z c)%Q.
Proof.
  unfold selected. rewrite list_elem_of_In, List.filter_In, <- list_elem_of_In.
  rewrite elem_of_enumerate. simpl. by rewrite exceeds_spec.
Qed.

Lemma cell_None ic :
  cell d ic = None
  ↔ d_text d !! ic.1 = None ∨ d_left d !! ic.1 = None ∨ d_top d !! ic.1 = None
    ∨ d_width d !! ic.1 = None ∨ d_height d !! ic.1 = None.
Proof.
  unfold cell.
  destruct (d_text d !! ic.1); simpl; [|tauto].
  destruct (d_left d !! ic.1); simpl; [|tauto].
  destruct (d_top d !! ic.1); simpl; [|tauto].
  destruct (d_width d !! ic.1); simpl; [|tauto].
  destruct (d_height d !! ic.1); simpl; [|tauto].
  split; [done|]. intros [?|[?|[?|[?|?]]]]; done.
Qed.

Lemma cell_Some ic b :
  cell d ic = Some b →
  b_conf b = ic.2 ∧ d_text d !! ic.1 = Some (b_text b)
  ∧ d_left d !! ic.1 = Some (b_left b) ∧ d_top d !! ic.1 = Some (b_top b)
  ∧ d_width d !! ic.1 = Some (b_width b) ∧ d_height d !! ic.1 = Some (b_height b).
Proof.
  unfold cell.
  destruct (d_text d !! ic.1); simpl; [|done].
  destruct (d_left d !! ic.1); simpl; [|done].
  destruct (d_top d !! ic.1); simpl; [|done].
  destruct (d_width d !! ic.1); simpl; [|done].
  destruct (d_height d !! ic.1); simpl; [|done].
  by intros [= <-].
Qed.

End Columns.

(** X1: on the columns the engine reports, [process_image] gives up (returns
    [None]) exactly when some entry of the confidence column lies above the
    threshold and one of the other columns has no entry at its index; columns
    that are short only at entries at or below the threshold do no harm. *)
Theorem process_image_none_iff (lang : string) (t : Q) (d : ocr_data) :
  process_image lang t (Ok d) = None
  ↔ ∃ i conf, d_conf d !! i = Some conf ∧ (t < inject_Z conf)%Q
            ∧ (d_text d !! i = None ∨ d_left d !! i = None ∨ d_top d !! i = None
               ∨ d_width d !! i = None ∨ d_height d !! i = None).
Proof.
  unfold process_image. rewrite collect_parts_cells. split.
  - destruct (mapM (cell d) (selected d t)) as [bs|] eqn:Hm; [done|]. intros _.
    assert (¬ Forall (is_Some ∘ cell d) (selected d t)) as Hn.
    { intros HF. apply mapM_is_Some in HF. rewrite Hm in HF. by destruct HF. }
    apply not_Forall_Exists in Hn; [|intros x; apply _].
    apply Exists_exists in Hn as ([i c] & Hin & Hc).
    apply elem_of_selected in Hin as [Hi Ht]. exists i, c.
    split; [done|]. split; [done|].
    apply (cell_None d (i, c)). simpl in Hc.
    destruct (cell d (i, c)); [|done]. exfalso. apply Hc. eauto.
  - intros (i & c & Hi & Ht & Hmiss).
    destruct (mapM (cell d) (selected d t)) as [bs|] eqn:Hm; [|done]. exfalso.
    assert (is_Some (mapM (cell d) (selected d t))) as HS by eauto.
    apply mapM_is_Some in HS. rewrite Forall_forall in HS.
    assert ((i, c) ∈ selected d t) as Hin by by apply elem_of_selected.
    apply HS in Hin. simpl in Hin.
    apply (cell_None d (i, c)) in Hmiss. rewrite Hmiss in Hin. by destruct Hin.
Qed.

Lemma selected_length (d : ocr_data) (t : Q) :
  length (selected d t) = length (List.filter (exceeds t) (d_conf d)).
Proof.
  unfold selected. induction (d_conf d) as [|c l IH] using rev_ind; [done|].
  rewrite enumerate_snoc, !List.filter_app, !length_app, IH. simpl.
  by destruct (exceeds t c).
Qed.

Lemma process_image_kept (lang : string) (t : Q) (d : ocr_data) (r : OCRResult) :
  process_image lang t (Ok d) = Some r →
  ∃ kept, Forall2 (λ ic b, cell d ic = Some b) (selected d t) kept
        ∧ r = {| text := String.concat " " (b_text <$> kept);
                 confidence := avg_confidence (b_conf <$> kept);
                 language := lang; page_number := None;
                 bounding_boxes := Some kept |}.
Proof.
  unfold process_image. rewrite collect_parts_cells.
  destruct (mapM (cell d) (selected d t)) as [kept|] eqn:Hm; [|done].
  simpl. intros [= <-]. exists kept. split; [|done]. by apply mapM_Some.
Qed.

Lemma kept_cells (t : Q) (d : ocr_data) (kept : list box) (b : box) :
  Forall2 (λ ic b, cell d ic = Some b) (selected d t) kept →
  b ∈ kept →
  (t < inject_Z (b_conf b))%Q
  ∧ ∃ i, d_conf d !! i = Some (b_conf b)
       ∧ d_text d !! i = Some (b_text b)
       ∧ d_left d !! i = Some (b_left b)
       ∧ d_top d !! i = Some (b_top b)
       ∧ d_width d !! i = Some (b_width b)
       ∧ d_height d !! i = Some (b_height b).
Proof.
  intros HF (k & Hk)%list_elem_of_lookup.
  destruct (Forall2_lookup_r _ _ _ _ _ HF Hk) as ([i c] & Hic & Hcell).
  apply list_elem_of_lookup_2, elem_of_selected in Hic as [Hi Ht].
  apply cell_Some in Hcell as (Hc & ? & ? & ? & ? & ?). simpl in *. subst c.
  split; [done|]. exists i. done.
Qed.

(** X2: when [process_image] returns a result, every entry of the confidence
    column above the threshold has produced one box, none is dropped; each
    box takes its text, confidence and geometry from one and the same index
    of the columns, its confidence is above the threshold, and the text and
    the confidence of the result are computed from those boxes. *)
Theorem process_image_aligned (lang : string) (t : Q) (d : ocr_data) (r : OCRResult) :
  process_image lang t (Ok d) = Some r →
  ∃ kept, bounding_boxes r = Some kept
        ∧ text r = String.concat " " (b_text <$> kept)
        ∧ confidence r = avg_confidence (b_conf <$> kept)
        ∧ length kept = length (List.filter (exceeds t) (d_conf d))
        ∧ ∀ b, b ∈ kept →
               (t < inject_Z (b_conf b))%Q
               ∧ ∃ i, d_conf d !! i = Some (b_conf b)
                    ∧ d_text d !! i = Some (b_text b)
                    ∧ d_left d !! i = Some (b_left b)
                    ∧ d_top d !! i = Some (b_top b)
                    ∧ d_width d !! i = Some (b_width b)
                    ∧ d_height d !! i = Some (b_height b).
Proof.
  intros (kept & HF & ->)%process_image_kept. exists kept. simpl.
  split; [done|]. split; [done|]. split; [done|]. split.
  - rewrite <- selected_length. symmetry. by eapply Forall2_length.
  - intros b Hb. by eapply kept_cells.
Qed.

Lemma process_image_aligned_witness :
  ∃ kept, bounding_boxes
            {| text := "cat"; confidence := 70; language := "eng";
               page_number := None; bounding_boxes := Some [token "cat" 70] |}
          = Some kept
        ∧ text {| text := "cat"; confidence := 70; language := "eng";
                  page_number := None; bounding_boxes := Some [token "cat" 70] |}
          = String.concat " " (b_text <$> kept)
        ∧ confidence {| text := "cat"; confidence := 70; language := "eng";
                        page_number := None; bounding_boxes := Some [token "cat" 70] |}
          = avg_confidence (b_conf <$> kept)
        ∧ length kept
          = length (List.filter (exceeds 60)
                      (d_conf (columns [token "cat" 70; token "dog" 40])))
        ∧ ∀ b, b ∈ kept →
               (60 < inject_Z (b_conf b))%Q
               ∧ ∃ i, d_conf (columns [token "cat" 70; token "dog" 40]) !! i
                      = Some (b_conf b)
                    ∧ d_text (columns [token "cat" 70; token "dog" 40]) !! i
                      = Some (b_text b)
                    ∧ d_left (columns [token "cat" 70; token "dog" 40]) !! i
                      = Some (b_left b)
                    ∧ d_top (columns [token "cat" 70; token "dog" 40]) !! i
                      = Some (b_top b)
                    ∧ d_width (columns [token "cat" 70; token "dog" 40]) !! i
                      = Some (b_width b)
                    ∧ d_height (columns [token "cat" 70; token "dog" 40]) !! i
                      = Some (b_height b).
Proof.
  apply (process_image_aligned "eng" 60 (columns [token "cat" 70; token "dog" 40])).
  reflexivity.
Defined.

(** ** The confidence of a result *)

Lemma inject_length_cons {A} (x : A) (l : list A) :
  (inject_Z (Z.of_nat (length (x :: l))) == inject_Z (Z.of_nat (length l)) + 1)%Q.
Proof.
  cbn [length]. rewrite Nat2Z.inj_succ, <- Z.add_1_r, inject_Z_plus. reflexivity.
Qed.

Lemma sum_above (t : Q) (l : list Z) :
  Forall (λ c, (t < inject_Z c)%Q) l →
  (t * inject_Z (Z.of_nat (length l)) <= inject_Z (sumZ l))%Q.
Proof.
  induction 1 as [|c l Hc Hl IH].
  - change (inject_Z (Z.of_nat (length (@nil Z)))) with 0%Q.
    change (inject_Z (sumZ [])) with 0%Q. lra.
  - rewrite inject_length_cons. cbn [sumZ foldr]. rewrite inject_Z_plus.
    fold (sumZ l). lra.
Qed.

Lemma sum_below (m : Z) (l : list Z) :
  Forall (λ c, (c ≤ m)%Z) l →
  (inject_Z (sumZ l) <= inject_Z m * inject_Z (Z.of_nat (length l)))%Q.
Proof.
  induction 1 as [|c l Hc Hl IH].
  - change (inject_Z (Z.of_nat (length (@nil Z)))) with 0%Q.
    change (inject_Z (sumZ [])) with 0%Q. lra.
  - rewrite inject_length_cons. cbn [sumZ foldr]. rewrite inject_Z_plus.
    fold (sumZ l). assert (inject_Z c <= inject_Z m)%Q by by rewrite <- Zle_Qle.
    lra.
Qed.

Lemma length_pos_Q {A} (x : A) (l : list A) :
  (0 < inject_Z (Z.of_nat (length (x :: l))))%Q.
Proof.
  rewrite inject_length_cons.
  assert (0 <= inject_Z (Z.of_nat (length l)))%Q.
  { change 0%Q with (inject_Z 0). rewrite <- Zle_Qle. lia. }
  lra.
Qed.

Lemma avg_confidence_above (t : Q) (l : list Z) :
  l ≠ [] → Forall (λ c, (t < inject_Z c)%Q) l → (t < avg_confidence l)%Q.
Proof.
  intros Hl HF. rewrite (avg_confidence_mean l Hl).
  destruct l as [|c l]; [done|]. clear Hl.
  apply Qlt_shift_div_l; [apply length_pos_Q|].
  inversion HF as [|? ? Hc Hrest]; subst.
  pose proof (sum_above t l Hrest) as Hs.
  rewrite inject_length_cons. cbn [sumZ foldr]. rewrite inject_Z_plus.
  fold (sumZ l). lra.
Qed.

Lemma avg_confidence_below (m : Z) (l : list Z) :
  (0 ≤ m)%Z → Forall (λ c, (c ≤ m)%Z) l → (avg_confidence l <= inject_Z m)%Q.
Proof.
  intros Hm HF. destruct l as [|c l].
  - simpl. change 0%Q with (inject_Z 0). by rewrite <- Zle_Qle.
  - rewrite (avg_confidence_mean (c :: l)) by done.
    apply Qle_shift_div_r; [apply length_pos_Q|]. by apply sum_below.
Qed.

(** X3: when the engine reports no confidence above 100 and the threshold is
    not negative, the confidence of every result lies in [0,100]; and when the
    result holds at least one box, its confidence is strictly above the
    threshold. *)
Theorem confidence_in_range (lang : string) (t : Q) (d : ocr_data) (r : OCRResult) :
  process_image lang t (Ok d) = Some r →
  (0 <= t)%Q →
  Forall (λ c, (c ≤ 100)%Z) (d_conf d) →
  (0 <= confidence r)%Q ∧ (confidence r <= 100)%Q
  ∧ (bounding_boxes r ≠ Some [] → (t < confidence r)%Q).
Proof.
  intros Hr Ht Hmax.
  destruct (process_image_kept lang t d r Hr) as (kept & HF & ->).
  assert (∀ b, b ∈ kept →
               (t < inject_Z (b_conf b))%Q
               ∧ ∃ i, d_conf d !! i = Some (b_conf b)) as Hk.
  { intros b Hin. destruct (kept_cells t d kept b HF Hin) as (? & i & ? & _). eauto. }
  cbn [confidence bounding_boxes].
  assert (Forall (λ c, (t < inject_Z c)%Q) (b_conf <$> kept)) as Habove.
  { apply Forall_fmap, Forall_forall. intros b Hin. by apply Hk. }
  assert (Forall (λ c, (c ≤ 100)%Z) (b_conf <$> kept)) as Hbelow.
  { apply Forall_fmap, Forall_forall. intros b Hin.
    destruct (Hk b Hin) as (_ & i & Hi). simpl.
    rewrite Forall_forall in Hmax. apply Hmax. by eapply list_elem_of_lookup_2. }
  split; [|split].
  - destruct kept as [|b kept]; [simpl; lra|].
    apply Qlt_le_weak, Qle_lt_trans with t; [done|].
    by apply avg_confidence_above.
  - by apply (avg_confidence_below 100).
  - intros Hne. apply avg_confidence_above; [|done]. by destruct kept.
Qed.

Lemma confidence_in_range_witness :
  (0 <= confidence {| text := "cat"; confidence := 70; language := "eng";
                      page_number := None;
                      bounding_boxes := Some [token "cat" 70] |})%Q
  ∧ (confidence {| text := "cat"; confidence := 70; language := "eng";
                   page_number := None;
                   bounding_boxes := Some [token "cat" 70] |} <= 100)%Q
  ∧ (bounding_boxes {| text := "cat"; confidence := 70; language := "eng";
                       page_number := None;
                       bounding_boxes := Some [token "cat" 70] |} ≠ Some [] →
     (60 < confidence {| text := "cat"; confidence := 70; language := "eng";
                         page_number := None;
                         bounding_boxes := Some [token "cat" 70] |})%Q).
Proof.
  apply (confidence_in_range "eng" 60 (columns [token "cat" 70; token "dog" 40])).
  - reflexivity.
  - unfold Qle; simpl; lia.
  - simpl. repeat (constructor; [lia|]). constructor.
Defined.

(** ** [process_pdf] on a document made of two parts *)

Lemma shifted_pages (lang : string) (t : Q) (n k : nat) (pages : list (exc ocr_data)) :
  omap id (imap (λ i image, _process_pdf_page lang t image (n + (k + i))) pages)
  = shift_page n
      <$> omap id (imap (λ i image, _process_pdf_page lang t image (k + i)) pages).
Proof.
  revert k. induction pages as [|image pages IH]; intros k; [done|].
  cbn [imap].
  assert (∀ m, imap ((λ i image, _process_pdf_page lang t image (m + i)) ∘ S) pages
               = imap (λ i image, _process_pdf_page lang t image (S m + i)) pages) as HS.
  { intros m. apply imap_ext. intros i x _. simpl. f_equal. lia. }
  rewrite (HS k).
  replace (imap ((λ i image0, _process_pdf_page lang t image0 (n + (k + i))) ∘ S) pages)
    with (imap (λ i image0, _process_pdf_page lang t image0 (n + (S k + i))) pages).
  2:{ apply imap_ext. intros i x _. simpl. f_equal. lia. }
  unfold _process_pdf_page at 1 3.
  destruct (process_image lang t image) as [r|]; cbn [omap list_omap id].
  - rewrite fmap_cons, IH. f_equal.
  - apply IH.
Qed.

(** X4: the pages of a document that follows another one are extracted as
    they would be on their own, with the page numbers moved by the length of
    the first document; the results of the whole are those of the first part
    followed by these, whatever the completion orders. *)
Theorem process_pdf_app (lang : string) (t : Q) (first second : list (exc ocr_data))
    (sched sched1 sched2 : list nat) :
  process_pdf lang t (Ok (first ++ second)) sched
  = process_pdf lang t (Ok first) sched1
    ++ (shift_page (length first) <$> process_pdf lang t (Ok second) sched2).
Proof.
  rewrite !process_pdf_pages. unfold page_results.
  rewrite imap_app, omap_app. f_equal.
  pose proof (shifted_pages lang t (length first) 0 second) as H.
  simpl in H. exact H.
Qed.

(** ** [process_file]: the extension test and the text layer *)

Lemma list_ascii_of_string_app (a b : string) :
  list_ascii_of_string (a +:+ b) = list_ascii_of_string a ++ list_ascii_of_string b.
Proof. induction a as [|c a IH]; [done|]. simpl. by rewrite IH. Qed.

Lemma lower_app (a b : string) : lower (a +:+ b) = lower a ++ lower b.
Proof. unfold lower. by rewrite list_ascii_of_string_app, fmap_app. Qed.

(** X5: the extension is tested without regard to letter case: for a name
    whose last characters are .pdf in any mix of upper and lower case, a
    failure of the primary path is followed by the text-layer attempt. *)
Theorem pdf_extension_any_case (stem ext e : string)
    (fallback : exc (list (option string))) :
  lower ext = list_ascii_of_string ".pdf" →
  endswith (lower (stem +:+ ext)) ".pdf" = true
  ∧ call_pdfplumber ∈ (process_file (Raise e) (stem +:+ ext) fallback).1.
Proof.
  intros Hext.
  assert (endswith (lower (stem +:+ ext)) ".pdf" = true) as Hend.
  { unfold endswith. apply bool_decide_eq_true. rewrite lower_app, Hext.
    by apply suffix_app_r. }
  split; [done|]. unfold process_file. rewrite Hend.
  destruct (exc_bind fallback join_pages); simpl;
    do 2 apply list_elem_of_further; apply list_elem_of_here.
Qed.

Lemma pdf_extension_any_case_witness :
  endswith (lower ("Scan 01" +:+ ".PdF")) ".pdf" = true
  ∧ call_pdfplumber ∈ (process_file (Raise "no engine") ("Scan 01" +:+ ".PdF")
                                    (Ok [Some "text"])).1.
Proof.
  apply (pdf_extension_any_case "Scan 01" ".PdF" "no engine" (Ok [Some "text"])).
  reflexivity.
Defined.

Lemma mapM_id_None {A} (l : list (option A)) : None ∈ l → mapM id l = None.
Proof.
  induction l as [|[x|] l IH]; intros Hin.
  - by apply elem_of_nil in Hin.
  - apply elem_of_cons in Hin as [[=]|Hin]. simpl. by rewrite IH.
  - done.
Qed.

(** X6: the text layer is all or nothing: when the primary path has raised
    and one page of the PDF has no text ([extract_text] gives [None]), the
    join fails and the document yields [None], whatever text the other pages
    hold, and the failure is logged. *)
Theorem text_layer_all_or_nothing (e file_path : string) (pages : list (option string)) :
  None ∈ pages →
  (process_file (Raise e) file_path (Ok pages)).2 = None
  ∧ (endswith (lower file_path) ".pdf" = true →
     ∃ msg, last (process_file (Raise e) file_path (Ok pages)).1 = Some (log_error msg)).
Proof.
  intros Hin. unfold process_file.
  destruct (endswith (lower file_path) ".pdf"); [|done].
  simpl. unfold join_pages. rewrite (mapM_id_None pages Hin). simpl.
  split; [done|]. intros _. eauto.
Qed.

Lemma text_layer_all_or_nothing_witness :
  (process_file (Raise "no engine") "scan.pdf" (Ok [Some "one"; None; Some "three"])).2
  = None
  ∧ (endswith (lower "scan.pdf") ".pdf" = true →
     ∃ msg, last (process_file (Raise "no engine") "scan.pdf"
                               (Ok [Some "one"; None; Some "three"])).1
            = Some (log_error msg)).
Proof.
  apply (text_layer_all_or_nothing "no engine" "scan.pdf" [Some "one"; None; Some "three"]).
  do 1 apply list_elem_of_further. apply list_elem_of_here.
Defined.

(** ** Construction of the processor *)

(** X7: when the Tesseract check fails, on every operating system the check
    returns instructions that are not empty, and the construction of the
    processor raises with a message that holds them between its fixed
    opening sentence and its list of alternatives; no processor is built.
    When the check succeeds, the processor is built with a list of languages
    joined by commas, and an empty path leaves the Tesseract command alone. *)
Theorem init_fails_fast (langs : string + list string) (tesseract_path : option string)
    (preprocess : bool) (threshold : Q) (workers : Z) (system e v : string) :
  (∃ instructions,
      check_tesseract_installation (Raise e) system = (false, instructions)
      ∧ instructions ≠ ""
      ∧ __init__ langs tesseract_path preprocess threshold workers (Raise e) system
        = Raise (not_installed instructions))
  ∧ (∃ p, __init__ langs tesseract_path preprocess threshold workers (Ok v) system = Ok p
        ∧ languages p = match langs with
                        | inl s => s
                        | inr l => String.concat "," l
                        end
        ∧ confidence_threshold p = threshold
        ∧ (tesseract_cmd p = None
           ↔ tesseract_path = None ∨ tesseract_path = Some "")).
Proof.
  split.
  - eexists. split; [reflexivity|]. split; [|reflexivity].
    unfold check_tesseract_installation. simpl.
    repeat (destruct (String.eqb _ _); [discriminate|]). discriminate.
  - eexists. split; [reflexivity|]. simpl. split; [done|]. split; [done|].
    destruct tesseract_path as [p|]; [|tauto].
    destruct (String.eqb p "") eqn:Hp.
    + apply String.eqb_eq in Hp as ->. tauto.
    + apply String.eqb_neq in Hp. split; [done|]. intros [[=]|[= ->]]. done.
Qed.

(** ** The run of [process] *)



(** X8: a dry run calls neither ingest nor retire, whatever the collaborators
    answer: its trace holds messages only, and it aborts exactly when the
    enumeration or a store query raised. *)
Theorem dry_run_calls_nothing (E : Env) (paths : list path) (recursive : bool) :
  Forall (λ ev, is_message ev = true) (trace (process E paths recursive true))
  ∧ (aborted (process E paths recursive true) = true
     ↔ ∃ msg, reconcile E paths recursive = Raise msg).
Proof.
  unfold process. destruct (reconcile E paths recursive) as [pl|msg].
  - destruct (_ && _); simpl.
    + split; [by repeat constructor|]. split; [done|]. by intros [? [=]].
    + split; [constructor|]. split; [done|]. by intros [? [=]].
  - simpl. split; [by repeat constructor|]. split; eauto.
Qed.



Lemma perform_stops (l1 l2 : list (event * exc unit)) ev e :
  (ev, Raise e) ∈ l1 →
  ∃ e', (perform (l1 ++ l2)).2 = Raise e'
      ∧ ∀ x, x ∈ (perform (l1 ++ l2)).1 → x ∈ l1.*1.
Proof.
  induction l1 as [|[ev1 [[]|e1]] l1 IH]; intros Hin.
  - by apply elem_of_nil in Hin.
  - apply elem_of_cons in Hin as [[=]|Hin].
    destruct (IH Hin) as (e' & Hr & Hsub). exists e'.
    cbn [app perform fst snd]. split; [done|].
    intros x [->|Hx]%elem_of_cons; [left|right; by apply Hsub].
  - exists e1. cbn [app perform fst snd]. split; [done|].
    intros x ->%list_elem_of_singleton. left.
Qed.

(** X10: retirements come first, and a retirement that raises ends the run:
    when the store refuses to retire one path of the plan, the run aborts and
    no file at all is handed to ingest. *)
Theorem failed_retire_blocks_ingest (E : Env) (paths : list path) (recursive : bool)
    (pl : plan) (f : path) (msg : string) :
  reconcile E paths recursive = Ok pl →
  f ∈ deleted_files pl →
  remove_document E f = Raise msg →
  aborted (process E paths recursive false) = true
  ∧ ∀ g, call_ingest_file g ∉ trace (process E paths recursive false).
Proof.
  intros Hpl Hf Hraise. unfold process. rewrite Hpl.
  rewrite (bool_decide_eq_false_2 (deleted_files pl = ∅)), andb_false_r.
  2:{ intros Hempty. rewrite Hempty in Hf. by apply elem_of_empty in Hf. }
  set (removes := (λ f, (call_remove_document f, remove_document E f))
                    <$> elements (deleted_files pl)).
  set (ingests := (λ f, (call_ingest_file f, ingest_file E f)) <$> files_to_process pl).
  assert ((call_remove_document f, Raise msg) ∈ removes) as Hin.
  { unfold removes. apply list_elem_of_fmap. exists f. rewrite Hraise.
    split; [done|]. by apply elem_of_elements. }
  destruct (perform_stops removes ingests _ _ Hin) as (e' & Hr & Hsub).
  unfold finish. rewrite Hr. simpl. split; [done|].
  intros g [Hg|Hg]%elem_of_app.
  - apply Hsub in Hg. unfold removes in Hg.
    rewrite <- list_fmap_compose in Hg.
    apply list_elem_of_fmap in Hg as (x & [=] & _).
  - apply list_elem_of_singleton in Hg. discriminate.
Qed.

Lemma failed_retire_blocks_ingest_witness :
  aborted (process (refusing (docs_world ["a.pdf"] ["a.pdf"; "old.txt"])
                             [["docs"; "old.txt"]])
                   [["docs"]] false false) = true
  ∧ ∀ g, call_ingest_file g
         ∉ trace (process (refusing (docs_world ["a.pdf"] ["a.pdf"; "old.txt"])
                                    [["docs"; "old.txt"]])
                          [["docs"]] false false).
Proof.
  apply (failed_retire_blocks_ingest
           (refusing (docs_world ["a.pdf"] ["a.pdf"; "old.txt"]) [["docs"; "old.txt"]])
           [["docs"]] false
           {| files_to_process := [["docs"; "a.pdf"]];
              current_files := {[ ["docs"; "a.pdf"] ]};
              previous_files := {[ ["docs"; "a.pdf"]; ["docs"; "old.txt"] ]};
              deleted_files := {[ ["docs"; "old.txt"] ]} |}
           ["docs"; "old.txt"] "store refused").
  - vm_compute. reflexivity.
  - simpl. apply elem_of_singleton. reflexivity.
  - reflexivity.
Defined.

Lemma elem_of_candidates (W : World) (recursive : bool) (root f : path) :
  f ∈ candidates W recursive root →
  w_is_file W f = true ∧ w_should_process W f = true.
Proof.
  unfold candidates. destruct (w_is_file W root) eqn:Hfile.
  - destruct (w_should_process W root) eqn:Hacc.
    + by intros ->%list_elem_of_singleton.
    + by intros ?%elem_of_nil.
  - destruct (w_is_dir W root); [|by intros ?%elem_of_nil].
    rewrite list_elem_of_In, List.filter_In, andb_true_iff. tauto.
Qed.

(** X11: only regular files that the classifier accepts are ever handed to
    ingest; a directory, or a path the classifier rejects, never is, also
    when it is itself a root of the scope. *)
Theorem ingest_only_accepted_files (W : World) (paths : list path) (recursive : bool)
    (f : path) :
  call_ingest_file f ∈ trace (process (reliable W) paths recursive false) →
  w_is_file W f = true ∧ w_should_process W f = true.
Proof.
  intros (root & _ & Hf)%ingest_in_trace%elem_of_worklist.
  by eapply elem_of_candidates.
Qed.

Lemma ingest_only_accepted_files_witness :
  w_is_file (docs_world ["a.pdf"; "b.png"] []) ["docs"; "a.pdf"] = true
  ∧ w_should_process (docs_world ["a.pdf"; "b.png"] []) ["docs"; "a.pdf"] = true.
Proof.
  apply (ingest_only_accepted_files (docs_world ["a.pdf"; "b.png"] []) [["docs"]] false).
  apply (bool_decide_unpack _). vm_compute. exact I.
Defined.

(** X12: a path the store reports for a root of the scope is retired as soon
    as it is not a current file, also when it is still on disk: it is enough
    that the classifier rejects it now, or that it is not a regular file. *)
Theorem rejected_file_is_retired (W : World) (paths : list path) (recursive : bool)
    (root f : path) :
  root ∈ paths →
  f ∈ w_documents W (base_path W root) recursive →
  w_should_process W f = false ∨ w_is_file W f = false →
  call_remove_document f ∈ trace (process (reliable W) paths recursive false).
Proof.
  intros Hroot Hf Hnot. apply remove_in_trace, elem_of_difference. split.
  - apply elem_of_list_to_set, elem_of_recorded. eauto.
  - intros (r & _ & Hc)%elem_of_list_to_set%elem_of_worklist.
    apply elem_of_candidates in Hc as [Hfile Hacc].
    destruct Hnot; congruence.
Qed.

Lemma rejected_file_is_retired_witness :
  call_remove_document ["docs"; "b.png"]
  ∈ trace (process (reliable (rejecting (docs_world ["a.pdf"; "b.png"] ["a.pdf"; "b.png"])
                                        [["docs"; "b.png"]]))
                   [["docs"]] false false).
Proof.
  apply (rejected_file_is_retired
           (rejecting (docs_world ["a.pdf"; "b.png"] ["a.pdf"; "b.png"])
                      [["docs"; "b.png"]])
           [["docs"]] false ["docs"] ["docs"; "b.png"]).
  - apply list_elem_of_here.
  - apply (bool_decide_unpack _). vm_compute. exact I.
  - left. vm_compute. reflexivity.
Defined.

(** X13: [process] reports that nothing changed, and stops there, exactly
    when no root contributes a file and the store reports nothing for any
    root; files that are all recorded and unchanged do not count as no
    change. *)
Theorem no_changes_iff (W : World) (paths : list path) (recursive dry_run : bool) :
  process (reliable W) paths recursive dry_run
  = {| trace := [print_warning "No changes detected"]; aborted := false |}
  ↔ worklist W recursive paths = [] ∧ recorded W recursive paths = [].
Proof.
  unfold process. rewrite reconcile_reliable. cbn [files_to_process deleted_files].
  split.
  - destruct (bool_decide (worklist W recursive paths = [])) eqn:Hw.
    + apply bool_decide_eq_true in Hw. rewrite Hw. cbn [list_to_set foldr].
      rewrite difference_empty_L.
      destruct (bool_decide _) eqn:Hd.
      * apply bool_decide_eq_true in Hd. intros _. split; [done|].
        destruct (recorded W recursive paths) as [|x l]; [done|].
        exfalso. assert (x ∈ (∅ : gset path)) as Hx; [|by apply elem_of_empty in Hx].
        rewrite <- Hd. apply elem_of_list_to_set. left.
      * simpl. destruct dry_run; [done|].
        rewrite perform_reliable. simpl. rewrite app_nil_r.
        unfold finish. simpl. intros [= Htr].
        destruct (elements _); discriminate.
    + simpl. destruct dry_run; [done|].
      rewrite perform_reliable.
      pose proof (perform_reliable call_ingest_file (worklist W recursive paths) []) as H.
      rewrite app_nil_r in H. rewrite H. unfold finish. simpl. rewrite app_nil_r.
      intros [= Htr]. apply bool_decide_eq_false in Hw.
      destruct (elements _) as [|x l]; simpl in Htr.
      * destruct (worklist W recursive paths); [done|discriminate].
      * discriminate.
  - intros [-> ->]. done.
Qed.

(** ** The watch callback, further *)

(** X14: whatever the collaborators do, handling one event never raises and
    makes at most one call to the store, for the path of the event itself:
    the trace is nothing, one ingest or one retire, followed by at most one
    report of a failure. *)
Theorem handle_event_shape (E : Env) (excluded : list string) (ev : WatcherEvent) :
  ∃ calls errs,
    handle_event E excluded ev = calls ++ errs
    ∧ (calls = [] ∨ calls = [call_ingest_file (ev_path ev)]
       ∨ calls = [call_remove_document (ev_path ev)])
    ∧ (errs = [] ∨ ∃ msg, errs = [print_error ("Event handling failed: " +:+ msg)]).
Proof.
  unfold handle_event, finish.
  destruct (bool_decide (event_type ev ∈ _)).
  - destruct (is_directory ev); [exists [], []; simpl; tauto|].
    destruct (any_match E (ev_path ev) excluded) as [[|]|e]; simpl.
    + exists [], []. simpl. tauto.
    + destruct (ingest_file E (ev_path ev)) as [[]|e]; simpl.
      * exists [call_ingest_file (ev_path ev)], []. rewrite app_nil_r. tauto.
      * eexists [call_ingest_file (ev_path ev)], [_].
        split; [done|]. split; [tauto|]. right. eauto.
    + eexists [], [_]. split; [done|]. split; [tauto|]. right. eauto.
  - destruct (bool_decide (event_type ev = "deleted")); [|exists [], []; simpl; tauto].
    destruct (is_directory ev); [exists [], []; simpl; tauto|].
    destruct (remove_document E (ev_path ev)) as [[]|e]; simpl.
    + exists [call_remove_document (ev_path ev)], []. rewrite app_nil_r. tauto.
    + eexists [call_remove_document (ev_path ev)], [_].
      split; [done|]. split; [tauto|]. right. eauto.
Qed.

Lemma any_match_first (E : Env) (p : path) (pre post : list string) (pat : string) :
  Forall (λ q, path_match E p q = Ok false) pre →
  any_match E p (pre ++ pat :: post)
  = try! m ← path_match E p pat; if m : bool then Ok true else any_match E p post.
Proof.
  induction 1 as [|q pre Hq Hpre IH]; [done|].
  cbn [app any_match]. rewrite Hq. exact IH.
Qed.

(** X15: the exclusion patterns are tried in order and the first match
    decides: once a pattern matches the path of a created or modified file,
    the event is dropped and the patterns after it are not tried, so that a
    later pattern on which the match would raise does no harm. *)
Theorem first_match_drops_event (E : Env) (p : path) (pre post : list string)
    (pat ty : string) :
  Forall (λ q, path_match E p q = Ok false) pre →
  path_match E p pat = Ok true →
  ty ∈ ["created"; "modified"] →
  any_match E p (pre ++ pat :: post) = Ok true
  ∧ handle_event E (pre ++ pat :: post)
      {| event_type := ty; ev_path := p; is_directory := false |} = [].
Proof.
  intros Hpre Hpat Hty.
  assert (any_match E p (pre ++ pat :: post) = Ok true) as Hany.
  { rewrite any_match_first by done. by rewrite Hpat. }
  split; [done|]. unfold handle_event. cbn [event_type is_directory ev_path].
  rewrite bool_decide_eq_true_2 by done. by rewrite Hany.
Qed.

Lemma first_match_drops_event_witness :
  any_match
    {| is_file _ := Ok true; is_dir _ := Ok false; glob _ _ := Ok [];
       should_process_file _ := Ok true; get_documents_in_directory _ _ := Ok [];
       ingest_file _ := Ok (); remove_document _ := Ok ();
       path_match p pat := if String.eqb pat "" then Raise "empty pattern"
                           else Ok (match_name p pat) |}
    ["docs"; "notes.tmp"] (["*.log"] ++ "*.tmp" :: [""]) = Ok true
  ∧ handle_event
      {| is_file _ := Ok true; is_dir _ := Ok false; glob _ _ := Ok [];
         should_process_file _ := Ok true; get_documents_in_directory _ _ := Ok [];
         ingest_file _ := Ok (); remove_document _ := Ok ();
         path_match p pat := if String.eqb pat "" then Raise "empty pattern"
                             else Ok (match_name p pat) |}
      (["*.log"] ++ "*.tmp" :: [""])
      {| event_type := "created"; ev_path := ["docs"; "notes.tmp"];
         is_directory := false |} = [].
Proof.
  apply (first_match_drops_event
           {| is_file _ := Ok true; is_dir _ := Ok false; glob _ _ := Ok [];
              should_process_file _ := Ok true; get_documents_in_directory _ _ := Ok [];
              ingest_file _ := Ok (); remove_document _ := Ok ();
              path_match p pat := if String.eqb pat "" then Raise "empty pattern"
                                  else Ok (match_name p pat) |}
           ["docs"; "notes.tmp"] ["*.log"] [""] "*.tmp" "created").
  - repeat constructor.
  - reflexivity.
  - apply list_elem_of_here.
Defined.

(** X16: when the match raises on a pattern before any pattern has matched
    (pathlib refuses an empty pattern, for one), the created or modified file
    is not ingested: the event ends in a failure report, whatever the other
    patterns are. *)
Theorem pattern_error_blocks_ingest (E : Env) (p : path) (pre post : list string)
    (pat ty msg : string) :
  Forall (λ q, path_match E p q = Ok false) pre →
  path_match E p pat = Raise msg →
  ty ∈ ["created"; "modified"] →
  handle_event E (pre ++ pat :: post)
    {| event_type := ty; ev_path := p; is_directory := false |}
  = [print_error ("Event handling failed: " +:+ msg)].
Proof.
  intros Hpre Hpat Hty. unfold handle_event. cbn [event_type is_directory ev_path].
  rewrite bool_decide_eq_true_2 by done.
  rewrite any_match_first by done. by rewrite Hpat.
Qed.

Lemma pattern_error_blocks_ingest_witness :
  handle_event
    {| is_file _ := Ok true; is_dir _ := Ok false; glob _ _ := Ok [];
       should_process_file _ := Ok true; get_documents_in_directory _ _ := Ok [];
       ingest_file _ := Ok (); remove_document _ := Ok ();
       path_match p pat := if String.eqb pat "" then Raise "empty pattern"
                           else Ok (match_name p pat) |}
    (["*.log"] ++ "" :: ["*.tmp"])
    {| event_type := "modified"; ev_path := ["docs"; "report.pdf"];
       is_directory := false |}
  = [print_error ("Event handling failed: " +:+ "empty pattern")].
Proof.
  apply (pattern_error_blocks_ingest
           {| is_file _ := Ok true; is_dir _ := Ok false; glob _ _ := Ok [];
              should_process_file _ := Ok true; get_documents_in_directory _ _ := Ok [];
              ingest_file _ := Ok (); remove_document _ := Ok ();
              path_match p pat := if String.eqb pat "" then Raise "empty pattern"
                                  else Ok (match_name p pat) |}
           ["docs"; "report.pdf"] ["*.log"] ["*.tmp"] "" "modified" "empty pattern").
  - repeat constructor.
  - reflexivity.
  - apply list_elem_of_further, list_elem_of_here.
Defined.

(** X17: an event whose type is none of created, modified and deleted (a
    move or rename, for one) calls nothing and reports nothing. *)
Theorem other_event_types_ignored (E : Env) (excluded : list string) (ty : string)
    (p : path) (dir : bool) :
  ty ∉ ["created"; "modified"; "deleted"] →
  handle_event E excluded {| event_type := ty; ev_path := p; is_directory := dir |} = [].
Proof.
  intros Hty. unfold handle_event. cbn [event_type].
  rewrite bool_decide_eq_false_2.
  2:{ intros Hin. apply Hty.
      apply elem_of_cons in Hin as [->|Hin]; [left|].
      apply list_elem_of_singleton in Hin as ->. right; left. }
  rewrite bool_decide_eq_false_2; [done|].
  intros ->. apply Hty. do 2 right. left.
Qed.

Lemma other_event_types_ignored_witness :
  handle_event denied ["*.tmp"]
    {| event_type := "moved"; ev_path := ["open"; "a.pdf"]; is_directory := false |} = [].
Proof.
  apply (other_event_types_ignored denied ["*.tmp"] "moved" ["open"; "a.pdf"] false).
  intros Hin. repeat (apply elem_of_cons in Hin as [[=]|Hin]). by apply elem_of_nil in Hin.
Defined.

(** ** The command [search]: the content cell *)

Import Commands.

Lemma slice_to_length (n : nat) (s : string) :
  String.length (slice_to n s) = min n (String.length s).
Proof.
  revert s. induction n as [|n IH]; intros [|c s]; simpl; auto.
Qed.

Lemma append_length (a b : string) :
  String.length (a +:+ b) = (String.length a + String.length b)%nat.
Proof. induction a as [|c a IH]; simpl; auto. Qed.

Lemma slice_to_prefix (n : nat) (s : string) : String.prefix (slice_to n s) s = true.
Proof.
  revert s. induction n as [|n IH]; intros [|c s]; simpl; auto.
  destruct (Ascii.ascii_dec c c); [apply IH|done].
Qed.

(** X18: the content shown by [search] never exceeds 100 characters; a chunk
    of at most 100 characters is shown as it is, and only such a chunk is; a
    longer one is shown as its first 97 characters followed by three dots,
    100 characters in all. *)
Theorem display_content_bounded (chunk_text : string) :
  (String.length (display_content chunk_text) ≤ 100)%nat
  ∧ (display_content chunk_text = chunk_text ↔ (String.length chunk_text ≤ 100)%nat)
  ∧ (display_content chunk_text = chunk_text
     ∨ (display_content chunk_text = slice_to 97 chunk_text +:+ "..."
        ∧ String.length (display_content chunk_text) = 100
        ∧ String.prefix (slice_to 97 chunk_text) chunk_text = true)).
Proof.
  unfold display_content.
  destruct (100 <? String.length chunk_text)%nat eqn:Hlen.
  - apply Nat.ltb_lt in Hlen.
    assert (String.length (slice_to 97 chunk_text +:+ "...") = 100) as H100.
    { rewrite append_length, slice_to_length.
      change (String.length "...") with 3. lia. }
    split; [lia|]. split.
    + split; [|lia]. intros Heq. rewrite Heq in H100. lia.
    + right. split; [done|]. split; [done|]. apply slice_to_prefix.
  - apply Nat.ltb_ge in Hlen. split; [done|]. split; [tauto|]. by left.
Qed.

(** ** The command [validate] *)

Section Validate.

Variables (W : World) (A : Archive).

Lemma only_files_reliable (entries : list path) :
  only_files (reliable W) entries = Ok (List.filter (w_is_file W) entries).
Proof.
  induction entries as [|p entries IH]; [done|].
  cbn [only_files List.filter]. rewrite IH. simpl. by destruct (w_is_file W p).
Qed.

Lemma paths_to_validate_reliable (p : path) (recursive : bool) :
  paths_to_validate (reliable W) p recursive = Ok (validated_files W p recursive).
Proof.
  unfold paths_to_validate, validated_files. simpl.
  destruct (w_is_file W p); [done|]. simpl.
  destruct (w_is_dir W p); [|done]. simpl. apply only_files_reliable.
Qed.

Lemma check_records_steady (st : stats) (files : list path) :
  (check_records (steady A) st files).2
  = Ok {| total_docs := total_docs st + length (omap (a_record A) files);
          total_chunks := total_chunks st + chunks_of A files;
          doc := match last files with
                 | Some p => a_record A p
                 | None => doc st
                 end |}.
Proof.
  revert st. induction files as [|p files IH]; intros st.
  - destruct st as [n c o]. unfold chunks_of. cbn. do 2 f_equal; lia.
  - cbn [check_records steady get_document_by_path get_document_embeddings].
    assert (∀ d, match last (p :: files) with
                 | Some q => a_record A q
                 | None => d
                 end
                 = match last files with
                   | Some q => a_record A q
                   | None => a_record A p
                   end) as Hlast.
    { intros d. rewrite last_cons. by destruct (last files). }
    rewrite Hlast. unfold chunks_of. cbn [omap list_omap].
    destruct (a_record A p) as [id|] eqn:Hp; cbn [snd].
    + rewrite IH. cbn [total_docs total_chunks doc].
      do 2 f_equal; [cbn [length]; lia|].
      unfold chunks_of. rewrite fmap_cons. simpl. lia.
    + rewrite IH. cbn [total_docs total_chunks doc]. done.
Qed.

End Validate.

Section ValidateRun.

Variables (W : World) (A : Archive).

Lemma check_records_length (D : Db) (st st' : stats) (files : list path) :
  (check_records D st files).2 = Ok st' →
  length (check_records D st files).1 = length files.
Proof.
  revert st. induction files as [|p files IH]; intros st; [done|].
  cbn [check_records].
  destruct (get_document_by_path D p) as [[id|]|e]; [| |done].
  - destruct (get_document_embeddings D id) as [emb|e]; [|done].
    cbn [fst snd length]. intros H. f_equal. by eapply IH.
  - cbn [fst snd length]. intros H. f_equal. by eapply IH.
Qed.

Lemma validate_steady (p : path) (recursive : bool) :
  validated_files W p recursive ≠ [] →
  ∃ log, length log = length (validated_files W p recursive)
  ∧ validate (reliable W) (steady A) p recursive
    = let files := validated_files W p recursive in
      let st := counted A files in
      let compared :=
        (found_files (length files) :: log
         ++ [summary (length files) (total_docs st) (total_chunks st)])
        ++ [total_vectors_in_store (a_ntotal A);
            if bool_decide (a_ntotal A ≠ total_chunks st)
            then vector_count_mismatch (a_ntotal A) (total_chunks st)
            else vector_count_matches] in
      match search_test (steady A) st with
      | (out, Ok _) => {| reports := compared ++ out; stopped := false |}
      | (out, Raise e) =>
          {| reports := compared ++ out ++ [validation_failed e]; stopped := true |}
      end.
Proof.
  intros Hne. unfold validate. rewrite paths_to_validate_reliable.
  destruct (validated_files W p recursive) as [|f fs] eqn:Hfiles; [done|].
  pose proof (check_records_steady A {| total_docs := 0; total_chunks := 0; doc := None |}
                (f :: fs)) as Hst.
  cbn [total_docs total_chunks doc] in Hst.
  exists (check_records (steady A) {| total_docs := 0; total_chunks := 0; doc := None |}
                        (f :: fs)).1.
  split; [by eapply check_records_length|].
  rewrite Hst. cbn [steady ntotal].
  assert ({| total_docs := 0 + length (omap (a_record A) (f :: fs));
             total_chunks := 0 + chunks_of A (f :: fs);
             doc := match last (f :: fs) with
                    | Some p0 => a_record A p0
                    | None => None
                    end |} = counted A (f :: fs)) as -> by done.
  done.
Qed.

End ValidateRun.

(** X19: when the collaborators do not raise and there is a file to
    validate, [validate] prints one line per file, then the summary with the
    number of files, the number of those that have a record and the sum of
    their chunk counts, then the vector count of the whole store, which is
    reported as matching exactly when it equals that sum of chunks. *)
Theorem validate_summary (W : World) (A : Archive) (p : path) (recursive : bool) :
  validated_files W p recursive ≠ [] →
  ∃ log tail,
    reports (validate (reliable W) (steady A) p recursive)
    = found_files (length (validated_files W p recursive)) :: log
      ++ [summary (length (validated_files W p recursive))
                  (length (omap (a_record A) (validated_files W p recursive)))
                  (chunks_of A (validated_files W p recursive));
          total_vectors_in_store (a_ntotal A);
          if bool_decide (a_ntotal A = chunks_of A (validated_files W p recursive))
          then vector_count_matches
          else vector_count_mismatch (a_ntotal A)
                                     (chunks_of A (validated_files W p recursive))]
      ++ tail
    ∧ length log = length (validated_files W p recursive)
    ∧ (length (omap (a_record A) (validated_files W p recursive))
       ≤ length (validated_files W p recursive))%nat.
Proof.
  intros Hne. destruct (validate_steady W A p recursive Hne) as (log & Hlog & ->).
  cbn zeta. set (files := validated_files W p recursive) in *.
  assert ((if bool_decide (a_ntotal A ≠ total_chunks (counted A files))
           then vector_count_mismatch (a_ntotal A) (total_chunks (counted A files))
           else vector_count_matches)
          = (if bool_decide (a_ntotal A = chunks_of A files)
             then vector_count_matches
             else vector_count_mismatch (a_ntotal A) (chunks_of A files))) as ->.
  { cbn [counted total_chunks]. rewrite bool_decide_not.
    by destruct (bool_decide _). }
  cbn [counted total_docs total_chunks].
  assert (length (omap (a_record A) files) ≤ length files)%nat as Hle.
  { clear. induction files as [|q l IH]; [done|]. cbn [omap list_omap].
    destruct (a_record A q); cbn [length]; lia. }
  destruct (search_test _ _) as [out [[]|e]]; cbn [reports].
  - exists log, out. split; [|done]. simpl. by rewrite <- !app_assoc.
  - exists log, (out ++ [validation_failed e]). split; [|done].
    simpl. by rewrite <- !app_assoc.
Qed.

Lemma validate_summary_witness :
  ∃ log tail,
    reports (validate (reliable (docs_world ["a.pdf"; "b.png"] [])) (steady one_document)
                      ["docs"] false)
    = found_files (length (validated_files (docs_world ["a.pdf"; "b.png"] [])
                                           ["docs"] false)) :: log
      ++ [summary (length (validated_files (docs_world ["a.pdf"; "b.png"] [])
                                           ["docs"] false))
                  (length (omap (a_record one_document)
                                (validated_files (docs_world ["a.pdf"; "b.png"] [])
                                                 ["docs"] false)))
                  (chunks_of one_document
                             (validated_files (docs_world ["a.pdf"; "b.png"] [])
                                              ["docs"] false));
          total_vectors_in_store (a_ntotal one_document);
          if bool_decide (a_ntotal one_document
                          = chunks_of one_document
                              (validated_files (docs_world ["a.pdf"; "b.png"] [])
                                               ["docs"] false))
          then vector_count_matches
          else vector_count_mismatch
                 (a_ntotal one_document)
                 (chunks_of one_document
                            (validated_files (docs_world ["a.pdf"; "b.png"] [])
                                             ["docs"] false))]
      ++ tail
    ∧ length log = length (validated_files (docs_world ["a.pdf"; "b.png"] [])
                                           ["docs"] false)
    ∧ (length (omap (a_record one_document)
                    (validated_files (docs_world ["a.pdf"; "b.png"] []) ["docs"] false))
       ≤ length (validated_files (docs_world ["a.pdf"; "b.png"] []) ["docs"] false))%nat.
Proof.
  apply (validate_summary (docs_world ["a.pdf"; "b.png"] []) one_document ["docs"] false).
  vm_compute. discriminate.
Defined.

Lemma counted_snoc (A : Archive) (files : list path) (last_file : path) :
  counted A (files ++ [last_file])
  = {| total_docs := length (omap (a_record A) files)
                     + length (omap (a_record A) [last_file]);
       total_chunks := chunks_of A (files ++ [last_file]);
       doc := a_record A last_file |}.
Proof.
  unfold counted. rewrite omap_app, length_app, last_snoc. done.
Qed.

(** X20: the search test at the end of [validate] reads the record of the
    file looked at last, not that of a file known to be recorded: when that
    file has no record while an earlier one has, or when its record has no
    chunk, the command prints its summary and then fails and aborts, although
    no collaborator raised. *)
Theorem validate_fails_on_last_file (W : World) (A : Archive) (p : path)
    (recursive : bool) (files : list path) (last_file : path) :
  validated_files W p recursive = files ++ [last_file] →
  (a_record A last_file = None ∧ omap (a_record A) files ≠ [])
  ∨ (∃ id, a_record A last_file = Some id ∧ a_chunks A id = []) →
  stopped (validate (reliable W) (steady A) p recursive) = true
  ∧ (∃ msg, last (reports (validate (reliable W) (steady A) p recursive))
            = Some (validation_failed msg))
  ∧ summary (length (files ++ [last_file]))
            (length (omap (a_record A) (files ++ [last_file])))
            (chunks_of A (files ++ [last_file]))
    ∈ reports (validate (reliable W) (steady A) p recursive).
Proof.
  intros Hfiles Hlast.
  assert (validated_files W p recursive ≠ []) as Hne.
  { rewrite Hfiles. by destruct files. }
  destruct (validate_steady W A p recursive Hne) as (log & _ & Hv).
  rewrite Hfiles in Hv. cbn zeta in Hv. rewrite counted_snoc in Hv.
  assert (∃ e, search_test (steady A)
                 {| total_docs := length (omap (a_record A) files)
                                  + length (omap (a_record A) [last_file]);
                    total_chunks := chunks_of A (files ++ [last_file]);
                    doc := a_record A last_file |} = ([], Raise e)) as [e He].
  { unfold search_test. cbn [total_docs doc].
    destruct Hlast as [[Hnone Hsome]|(id & Hid & Hchunks)].
    - rewrite Hnone. destruct (omap (a_record A) files); [done|]. simpl. eauto.
    - rewrite Hid. cbn [omap list_omap]. rewrite Hid.
      rewrite Nat.add_comm. cbn [length Nat.add Nat.ltb Nat.leb].
      cbn [steady get_document_embeddings]. rewrite Hchunks. eauto. }
  rewrite He in Hv. rewrite Hv. cbn [stopped reports total_docs total_chunks].
  split; [done|]. split.
  - exists e. by rewrite app_nil_l, last_snoc.
  - rewrite omap_app, !length_app.
    repeat (rewrite ?elem_of_app, ?elem_of_cons). auto 10.
Qed.

Lemma validate_fails_on_last_file_witness :
  stopped (validate (reliable (docs_world ["a.pdf"; "b.png"] [])) (steady one_document)
                    ["docs"] false) = true
  ∧ (∃ msg, last (reports (validate (reliable (docs_world ["a.pdf"; "b.png"] []))
                                    (steady one_document) ["docs"] false))
            = Some (validation_failed msg))
  ∧ summary (length ([["docs"; "a.pdf"]] ++ [["docs"; "b.png"]]))
            (length (omap (a_record one_document)
                          ([["docs"; "a.pdf"]] ++ [["docs"; "b.png"]])))
            (chunks_of one_document ([["docs"; "a.pdf"]] ++ [["docs"; "b.png"]]))
    ∈ reports (validate (reliable (docs_world ["a.pdf"; "b.png"] []))
                        (steady one_document) ["docs"] false).
Proof.
  apply (validate_fails_on_last_file (docs_world ["a.pdf"; "b.png"] []) one_document
           ["docs"] false [["docs"; "a.pdf"]] ["docs"; "b.png"]).
  - vm_compute. reflexivity.
  - left. split; [reflexivity|]. vm_compute. discriminate.
Defined.

(** X21: when the file looked at last has a record with at least one chunk,
    the search test queries the text of that record's first chunk, and the
    command ends normally with the results of that query. *)
Theorem validate_samples_last_file (W : World) (A : Archive) (p : path)
    (recursive : bool) (files : list path) (last_file : path) (id : Z)
    (sample : string) (more : list string) :
  validated_files W p recursive = files ++ [last_file] →
  a_record A last_file = Some id →
  a_chunks A id = sample :: more →
  stopped (validate (reliable W) (steady A) p recursive) = false
  ∧ last (reports (validate (reliable W) (steady A) p recursive))
    = Some (sample_search_results (a_search A sample)).
Proof.
  intros Hfiles Hid Hchunks.
  assert (validated_files W p recursive ≠ []) as Hne.
  { rewrite Hfiles. by destruct files. }
  destruct (validate_steady W A p recursive Hne) as (log & _ & Hv).
  rewrite Hfiles in Hv. cbn zeta in Hv. rewrite counted_snoc in Hv.
  assert (search_test (steady A)
            {| total_docs := length (omap (a_record A) files)
                             + length (omap (a_record A) [last_file]);
               total_chunks := chunks_of A (files ++ [last_file]);
               doc := a_record A last_file |}
          = ([sample_search_results (a_search A sample)], Ok ())) as He.
  { unfold search_test. cbn [total_docs doc omap list_omap]. rewrite Hid.
    rewrite Nat.add_comm. cbn [length Nat.add Nat.ltb Nat.leb].
    cbn [steady get_document_embeddings search_service_search]. by rewrite Hchunks. }
  rewrite He in Hv. rewrite Hv. cbn [stopped reports].
  split; [done|]. by rewrite last_snoc.
Qed.

Lemma validate_samples_last_file_witness :
  stopped (validate (reliable (docs_world ["b.png"; "a.pdf"] [])) (steady one_document)
                    ["docs"] false) = false
  ∧ last (reports (validate (reliable (docs_world ["b.png"; "a.pdf"] []))
                            (steady one_document) ["docs"] false))
    = Some (sample_search_results (a_search one_document "alpha")).
Proof.
  apply (validate_samples_last_file (docs_world ["b.png"; "a.pdf"] []) one_document
           ["docs"] false [["docs"; "b.png"]] ["docs"; "a.pdf"] 1 "alpha" ["beta"]).
  - vm_compute. reflexivity.
  - reflexivity.
  - reflexivity.
Defined.

(** X22: when the path holds no regular file, [validate] says so and ends
    normally without asking the database or the vector store anything: the
    outcome is the same when every call to them would raise. *)
Theorem validate_nothing_to_do (W : World) (D : Db) (p : path) (recursive : bool) :
  validated_files W p recursive = [] →
  validate (reliable W) D p recursive
  = {| reports := [no_files_found]; stopped := false |}.
Proof.
  intros Hfiles. unfold validate. by rewrite paths_to_validate_reliable, Hfiles.
Qed.

Lemma validate_nothing_to_do_witness :
  validate (reliable (docs_world [] [])) unreachable ["docs"] true
  = {| reports := [no_files_found]; stopped := false |}.
Proof.
  apply (validate_nothing_to_do (docs_world [] []) unreachable ["docs"] true).
  reflexivity.
Defined.

(** ** The command [list] *)

Section SortBy.

Context {A K : Type} (lt : K → K → bool) (key : A → K) (reverse : bool).

Hypothesis lt_asym : ∀ a b, lt a b = true → lt b a = false.

Lemma insert_sorted_perm (x : A) (l : list A) :
  insert_sorted lt key reverse x l ≡ₚ x :: l.
Proof.
  induction l as [|y l IH]; [done|]. simpl.
  destruct (must_follow lt key reverse x y); [|done].
  rewrite IH. apply Permutation_swap.
Qed.

Lemma sort_by_perm (l : list A) : sort_by lt key reverse l ≡ₚ l.
Proof.
  induction l as [|x l IH]; [done|]. simpl.
  by rewrite insert_sorted_perm, IH.
Qed.

Lemma must_follow_asym (x y : A) :
  must_follow lt key reverse x y = true → must_follow lt key reverse y x = false.
Proof. unfold must_follow. destruct reverse; apply lt_asym. Qed.

Lemma insert_sorted_Sorted (x : A) (l : list A) :
  Sorted (λ a b, must_follow lt key reverse a b = false) l →
  Sorted (λ a b, must_follow lt key reverse a b = false)
         (insert_sorted lt key reverse x l).
Proof.
  induction 1 as [|y l Hl IH Hhd]; simpl; [by repeat constructor|].
  destruct (must_follow lt key reverse x y) eqn:Hxy.
  - constructor; [done|].
    destruct Hhd as [|z l' Hyz]; simpl.
    + constructor. by apply must_follow_asym.
    + destruct (must_follow lt key reverse x z); constructor; [done|].
      by apply must_follow_asym.
  - constructor; [by constructor|]. by constructor.
Qed.

Lemma sort_by_Sorted (l : list A) :
  Sorted (λ a b, must_follow lt key reverse a b = false) (sort_by lt key reverse l).
Proof.
  induction l as [|x l IH]; [constructor|]. simpl. by apply insert_sorted_Sorted.
Qed.

End SortBy.

Lemma string_ltb_asym (a b : string) : String.ltb a b = true → String.ltb b a = false.
Proof.
  unfold String.ltb. rewrite (String.compare_antisym b a).
  by destruct (String.compare a b).
Qed.

Lemma nat_ltb_asym (a b : nat) : Nat.ltb a b = true → Nat.ltb b a = false.
Proof. intros H%Nat.ltb_lt. apply Nat.ltb_ge. lia. Qed.

Lemma arrange_perm (sort : string) (reverse : bool) (docs : list enhanced) :
  arrange sort reverse docs ≡ₚ docs.
Proof. unfold arrange. repeat destruct (String.eqb _ _); apply sort_by_perm. Qed.

(** X23: whatever the sort key and the direction, [list] shows every
    document once (the sorted list is a permutation).  By date the newer
    document never comes after an older one, by chunks the larger never after
    a smaller one, by name the names never go down; with [--reverse] each of
    the three orders is turned round. *)
Theorem arrange_order (reverse : bool) (docs : list enhanced) (sort : string) :
  arrange sort reverse docs ≡ₚ docs
  ∧ Sorted (λ a b, (if reverse
                    then String.ltb (created_at (base b)) (created_at (base a))
                    else String.ltb (created_at (base a)) (created_at (base b)))
                   = false)
           (arrange "date" reverse docs)
  ∧ Sorted (λ a b, (if reverse
                    then String.ltb (name (doc_path (base a))) (name (doc_path (base b)))
                    else String.ltb (name (doc_path (base b))) (name (doc_path (base a))))
                   = false)
           (arrange "name" reverse docs)
  ∧ Sorted (λ a b, (if reverse
                    then Nat.ltb (chunk_count b) (chunk_count a)
                    else Nat.ltb (chunk_count a) (chunk_count b))
                   = false)
           (arrange "chunks" reverse docs).
Proof.
  split; [apply arrange_perm|].
  split; [|split].
  - pose proof (sort_by_Sorted String.ltb (λ x, created_at (base x)) (negb reverse)
                  string_ltb_asym docs) as H.
    unfold must_follow in H. by destruct reverse.
  - pose proof (sort_by_Sorted String.ltb (λ x, name (doc_path (base x))) reverse
                  string_ltb_asym docs) as H.
    unfold must_follow in H. by destruct reverse.
  - pose proof (sort_by_Sorted Nat.ltb chunk_count (negb reverse) nat_ltb_asym docs) as H.
    unfold must_follow in H. by destruct reverse.
Qed.

Lemma exc_map_total {A B} (f : A → exc B) (g : A → B) (l : list A) :
  (∀ x, f x = Ok (g x)) → exc_map f l = Ok (g <$> l).
Proof.
  intros Hf. induction l as [|x l IH]; [done|]. simpl. by rewrite Hf, IH.
Qed.

Lemma exc_map_raises {A B} (f : A → exc B) (l : list A) x msg :
  x ∈ l → f x = Raise msg → ∃ e, exc_map f l = Raise e.
Proof.
  intros Hin Hx. induction l as [|y l IH]; [by apply elem_of_nil in Hin|].
  simpl. apply elem_of_cons in Hin as [<-|Hin].
  - rewrite Hx. eauto.
  - destruct (f y); simpl; [|eauto].
    destruct (IH Hin) as [e ->]. eauto.
Qed.

(** The documents with their chunk counts, on a database that does not
    raise. *)
Lemma enhance_steady (A : Archive) (docs : list document) :
  exc_map (λ d, try! chunks ← get_document_embeddings (steady A) (doc_id d);
                Ok {| base := d; chunk_count := length chunks |}) docs
  = Ok ((λ d, {| base := d; chunk_count := length (a_chunks A (doc_id d)) |}) <$> docs).
Proof. by apply exc_map_total. Qed.

(** X24: when nothing raises and the archive is not empty, [list] shows a
    table with exactly one row for every document of the archive, whatever
    the sort key and direction, each row with the chunk count of its own
    document, and the totals of the summary are the number of documents and
    the sum of their chunk counts. *)
Theorem list_shows_every_document (A : Archive) (fmt : string → string)
    (docs : list document) (sort : string) (reverse : bool) :
  docs ≠ [] →
  ∃ rows,
    list_ (Ok docs) (steady A) (λ s, Ok (fmt s)) sort reverse
    = table rows (length docs)
            (sum_list ((λ d, length (a_chunks A (doc_id d))) <$> docs))
    ∧ rows ≡ₚ (λ d, (doc_id d, doc_path d, fmt (created_at d),
                     length (a_chunks A (doc_id d)))) <$> docs.
Proof.
  intros Hne. unfold list_. destruct docs as [|d0 docs0] eqn:Hdocs; [done|].
  rewrite <- Hdocs in *. clear Hdocs Hne.
  rewrite enhance_steady.
  set (enh := (λ d, {| base := d; chunk_count := length (a_chunks A (doc_id d)) |}) <$> docs).
  rewrite (exc_map_total _ (λ x, (doc_id (base x), doc_path (base x),
                                  fmt (created_at (base x)), chunk_count x))) by done.
  eexists. split.
  - f_equal.
    + unfold enh. by rewrite length_fmap.
    + unfold enh. by rewrite <- list_fmap_compose.
  - rewrite (arrange_perm sort reverse enh).
    unfold enh. by rewrite <- list_fmap_compose.
Qed.

Lemma list_shows_every_document_witness :
  ∃ rows,
    list_ (Ok [ {| doc_id := 1; doc_path := ["docs"; "a.pdf"];
                   created_at := "2024-01-02T10:00:00" |};
                {| doc_id := 2; doc_path := ["docs"; "b.png"];
                   created_at := "2024-03-04T09:30:00" |} ])
          (steady one_document) (λ s, Ok (slice_to 10 s)) "date" false
    = table rows
            (length [ {| doc_id := 1; doc_path := ["docs"; "a.pdf"];
                         created_at := "2024-01-02T10:00:00" |};
                      {| doc_id := 2; doc_path := ["docs"; "b.png"];
                         created_at := "2024-03-04T09:30:00" |} ])
            (sum_list ((λ d, length (a_chunks one_document (doc_id d)))
                         <$> [ {| doc_id := 1; doc_path := ["docs"; "a.pdf"];
                                  created_at := "2024-01-02T10:00:00" |};
                               {| doc_id := 2; doc_path := ["docs"; "b.png"];
                                  created_at := "2024-03-04T09:30:00" |} ]))
    ∧ rows ≡ₚ (λ d, (doc_id d, doc_path d, slice_to 10 (created_at d),
                     length (a_chunks one_document (doc_id d))))
              <$> [ {| doc_id := 1; doc_path := ["docs"; "a.pdf"];
                       created_at := "2024-01-02T10:00:00" |};
                    {| doc_id := 2; doc_path := ["docs"; "b.png"];
                       created_at := "2024-03-04T09:30:00" |} ].
Proof.
  apply (list_shows_every_document one_document (slice_to 10)
           [ {| doc_id := 1; doc_path := ["docs"; "a.pdf"];
                created_at := "2024-01-02T10:00:00" |};
             {| doc_id := 2; doc_path := ["docs"; "b.png"];
                created_at := "2024-03-04T09:30:00" |} ] "date" false).
  discriminate.
Defined.

(** X25: one creation time that cannot be read as an ISO date makes the whole
    command fail: when the formatting raises for one document, no table is
    shown, whatever the sort key and direction. *)
Theorem list_fails_on_bad_date (A : Archive) (strftime : string → exc string)
    (docs : list document) (sort : string) (reverse : bool) (d : document)
    (msg : string) :
  d ∈ docs →
  strftime (created_at d) = Raise msg →
  ∃ e, list_ (Ok docs) (steady A) strftime sort reverse = list_failed e.
Proof.
  intros Hd Hraise. unfold list_. destruct docs as [|d0 docs0] eqn:Hdocs.
  { by apply elem_of_nil in Hd. }
  rewrite <- Hdocs in *. clear Hdocs. rewrite enhance_steady.
  set (enh := (λ d, {| base := d; chunk_count := length (a_chunks A (doc_id d)) |}) <$> docs).
  assert ({| base := d; chunk_count := length (a_chunks A (doc_id d)) |}
          ∈ arrange sort reverse enh) as Hin.
  { rewrite (arrange_perm sort reverse enh).
    unfold enh. apply list_elem_of_fmap. by exists d. }
  destruct (exc_map_raises
              (λ x, try! created ← strftime (created_at (base x));
                    Ok (doc_id (base x), doc_path (base x), created, chunk_count x))
              _ _ msg Hin) as [e ->]; [|eauto].
  simpl. by rewrite Hraise.
Qed.

Lemma list_fails_on_bad_date_witness :
  ∃ e, list_ (Ok [ {| doc_id := 1; doc_path := ["docs"; "a.pdf"];
                      created_at := "2024-01-02T10:00:00" |};
                   {| doc_id := 2; doc_path := ["docs"; "b.png"];
                      created_at := "yesterday" |} ])
             (steady one_document)
             (λ s, if String.eqb s "yesterday" then Raise "Invalid isoformat string"
                   else Ok (slice_to 10 s))
             "name" true
       = list_failed e.
Proof.
  apply (list_fails_on_bad_date one_document
           (λ s, if String.eqb s "yesterday" then Raise "Invalid isoformat string"
                 else Ok (slice_to 10 s))
           [ {| doc_id := 1; doc_path := ["docs"; "a.pdf"];
                created_at := "2024-01-02T10:00:00" |};
             {| doc_id := 2; doc_path := ["docs"; "b.png"];
                created_at := "yesterday" |} ]
           "name" true
           {| doc_id := 2; doc_path := ["docs"; "b.png"]; created_at := "yesterday" |}
           "Invalid isoformat string").
  - apply list_elem_of_further, list_elem_of_here.
  - reflexivity.
Defined.
